(** * Lexikon: the lexicon-builder pipeline

    A shallow embedding of the two programs of the repository,
    [hit_api.py] (stop-word filtering, one translation request per word) and
    [lexikon_v2.py] (tag-based filtering, one batch request), and the
    properties of their pipeline stages. *)

From Stdlib Require Import NArith Ascii String.
From stdpp Require Import base decidable option list sorting gmap.

Local Open Scope N_scope.

(** * Python strings

    A Python [str] is a sequence of Unicode code points; comparison of two
    strings is lexicographic on the code points. *)

Abbreviation char := N (only parsing).
Abbreviation pystr := (list N) (only parsing).

(** Code points of an ASCII literal, to write the constants of the source. *)
Fixpoint py (s : string) : pystr :=
  match s with
  | EmptyString => []
  | String a s' => N_of_ascii a :: py s'
  end.

Arguments py : simpl never.

(** [s < t] on [str]. *)
Fixpoint str_ltb (s t : pystr) : bool :=
  match s, t with
  | _, [] => false
  | [], _ :: _ => true
  | a :: s', b :: t' => (a <? b) || ((a =? b) && str_ltb s' t')
  end.

Definition str_lt (s t : pystr) : Prop := str_ltb s t = true.

(** [sorted] only ever asks [y < x]; [x] stays before [y] when the answer is
    no. *)
Definition str_le (s t : pystr) : Prop := str_ltb t s = false.

Global Instance str_lt_dec : RelDecision str_lt.
Proof. intros s t. unfold str_lt. apply _. Defined.

Global Instance str_le_dec : RelDecision str_le.
Proof. intros s t. unfold str_le. apply _. Defined.

(** [str.isspace()]: the code points that [str.split()] separates on and that
    [\s] matches in a [str] pattern. *)
Definition is_space (c : char) : bool :=
  ((9 <=? c) && (c <=? 13)) || ((28 <=? c) && (c <=? 32))
  || (c =? 133) || (c =? 160) || (c =? 5760)
  || ((8192 <=? c) && (c <=? 8202))
  || (c =? 8232) || (c =? 8233) || (c =? 8239) || (c =? 8287) || (c =? 12288).

Definition SPACE : char := 32.
Definition NEWLINE : char := 10.

(** [text.split()]: the maximal runs of non-whitespace characters.  A
    non-space character starts a word of its own when the text ends or a
    space follows it, and otherwise joins the word that starts right after
    it. *)
Definition cons_word (c : char) (ws : list pystr) : list pystr :=
  match ws with
  | [] => [[c]]
  | w :: ws' => (c :: w) :: ws'
  end.

Fixpoint split (text : pystr) : list pystr :=
  match text with
  | [] => []
  | c :: rest =>
      if is_space c then split rest
      else match rest with
           | [] => [[c]]
           | d :: _ => if is_space d then [c] :: split rest
                       else cons_word c (split rest)
           end
  end.

(** [sep.join(words)]. *)
Fixpoint join (sep : pystr) (words : list pystr) : pystr :=
  match words with
  | [] => []
  | [w] => w
  | w :: ws => w ++ sep ++ join sep ws
  end.

(** A word, as [split] produces them: not empty and free of whitespace. *)
Definition is_word (w : pystr) : Prop :=
  w ≠ [] /\ Forall (fun c => is_space c = false) w.

(** Two spaces in a row somewhere in the text. *)
Definition doubled_space (s : pystr) : Prop :=
  exists l1 l2, s = l1 ++ SPACE :: SPACE :: l2.

(** [text.strip()]. *)
Fixpoint lstrip (text : pystr) : pystr :=
  match text with
  | [] => []
  | c :: rest => if is_space c then lstrip rest else text
  end.

Definition strip (text : pystr) : pystr := rev (lstrip (rev (lstrip text))).

(** [sorted(words)]: a stable merge sort asking [<]. *)
Definition sorted (words : list pystr) : list pystr := merge_sort str_le words.

(** Exceptions end the run; the two kinds the programs can meet. *)
Inductive exn := BackendError | IndexError.

Inductive res (A : Type) : Type :=
  | Ok (a : A)
  | Raise (e : exn).
Arguments Ok {A} a.
Arguments Raise {A} e.

Definition bind {A B} (m : res A) (k : A -> res B) : res B :=
  match m with
  | Ok a => k a
  | Raise e => Raise e
  end.

Notation "'let!' x ':=' m 'in' k" := (bind m (fun x => k))
  (at level 10, x name, m at level 100, k at level 200).

(** * hit_api.py *)
Module HitApi.

(** The character class [a-zäàâçéèêëîïôöûùüÿñæœß] of [remove_punctuation],
    without its space. *)
Definition is_letter (c : char) : bool :=
  ((97 <=? c) && (c <=? 122))
  || bool_decide (c ∈ [228; 224; 226; 231; 233; 232; 234; 235; 238; 239;
                       244; 246; 251; 249; 252; 255; 241; 230; 339; 223]).

(** A character the pattern [[^a-z...ß ]] does not match. *)
Definition in_class (c : char) : bool := is_letter c || (c =? SPACE).

Definition remove_punctuation (text : pystr) : pystr :=
  map (fun c => if in_class c then c else SPACE) text.

(** [re.sub('\s+', ' ', text)]: of every run of whitespace only the last
    character is kept, as a space. *)
Fixpoint normalize_whitespace (text : pystr) : pystr :=
  match text with
  | [] => []
  | c :: rest =>
      if is_space c then
        match rest with
        | [] => [SPACE]
        | d :: _ => if is_space d then normalize_whitespace rest
                    else SPACE :: normalize_whitespace rest
        end
      else c :: normalize_whitespace rest
  end.

(** A word made of letters of the source alphabet. *)
Definition is_letter_word (w : pystr) : Prop :=
  w ≠ [] /\ Forall (fun c => is_letter c = true) w.

(** [sorted(list(set(words)))]: the set is a [gset], and listing it gives
    its elements in an order of the set's own. *)
Definition normalize (words : list pystr) : list pystr :=
  sorted (elements (list_to_set words : gset pystr)).

Definition to_list (text : pystr) : list pystr := split text.

Definition to_unique_list (text : pystr) : list pystr :=
  let words := to_list text in
  let words := normalize words in
  words.

(** One item of [extra_data["all-translations"]]: [translation[0]] is the
    part of speech and [translation[1]] the list of targets. *)
Record translation := { t_pos : pystr; t_targets : list pystr }.

(** [extra_data["all-translations"]]: no such key, [None], or a list. *)
Inductive all_translations :=
  | Absent
  | Null
  | Senses (l : list translation).

(** What a call of [translator.translate] does: it raises, or returns an
    object without the attribute [extra_data], or one with it. *)
Inductive answer :=
  | Raises
  | Plain
  | ExtraData (a : all_translations).

(** One dict of the list [lexicon]. *)
Record line := { Source : pystr; PartOfSpeech : pystr; Target : pystr }.

Definition single_translation (word part_of_speech target : pystr) : line :=
  {| Source := word; PartOfSpeech := part_of_speech; Target := target |}.

Definition sentinel (word : pystr) : line :=
  single_translation word (py "?") (py "???").

(** [print(f"{line['Source']} ({line['PartOfSpeech']}) - {line['Target']}")] *)
Definition render (l : line) : pystr :=
  Source l ++ py " (" ++ PartOfSpeech l ++ py ") - " ++ Target l.

Section Program.
(** [str.lower], NLTK's [stopwords.words('french')] and googletrans'
    [Translator().translate(word, src=...)] are the libraries'. *)
Variable lower : pystr -> pystr.
Variable stopwords : list pystr.
Variable translate : pystr -> pystr -> answer.

Definition remove_stop_words (text : pystr) : pystr :=
  let output := filter (fun word => word ∉ stopwords) (split text) in
  join [SPACE] output.

Definition clean (text : pystr) : pystr :=
  let output := lower text in
  let output := remove_punctuation output in
  let output := remove_stop_words output in
  let output := normalize_whitespace output in
  output.

Definition process (text : pystr) : list pystr :=
  let output := clean text in
  let output := to_unique_list output in
  output.

Definition query_one_word (word source_language : pystr) : answer :=
  translate word source_language.

(** [for translation in result.extra_data["all-translations"]: ...];
    [translation[1][0]] raises on an empty list of targets. *)
Fixpoint append_translations (word : pystr) (l : list translation)
    (lexicon : list line) : res (list line) :=
  match l with
  | [] => Ok lexicon
  | translation :: rest =>
      let part_of_speech := t_pos translation in
      match t_targets translation with
      | [] => Raise IndexError
      | target :: _ =>
          append_translations word rest
            (lexicon ++ [single_translation word part_of_speech target])
      end
  end.

(** The body of [for word in words]. *)
Definition resolve_word (word : pystr) (lexicon : list line)
    : res (list line) :=
  match query_one_word word (py "fr") with
  | Raises => Raise BackendError
  | Plain => Ok lexicon
  | ExtraData (Senses l) => append_translations word l lexicon
  | ExtraData _ => Ok (lexicon ++ [sentinel word])
  end.

Fixpoint build_lexicon (words : list pystr) (lexicon : list line)
    : res (list line) :=
  match words with
  | [] => Ok lexicon
  | word :: rest =>
      let! lexicon' := resolve_word word lexicon in
      build_lexicon rest lexicon'
  end.

(** The module body, from the text read to the lines printed. *)
Definition main (text : pystr) : res (list pystr) :=
  let words := process text in
  let! lexicon := build_lexicon words [] in
  Ok (map render lexicon).
End Program.

(** An answer on which the body of the loop runs to its end: the call
    returned, and every translation listed has a first target. *)
Definition answers (a : answer) : Prop :=
  match a with
  | Raises => False
  | Plain => True
  | ExtraData (Senses l) => Forall (fun t => t_targets t ≠ []) l
  | ExtraData _ => True
  end.

(** The lines the loop appends for a word, given the answer for it. *)
Definition lines_of (word : pystr) (a : answer) : list line :=
  match a with
  | Raises | Plain => []
  | ExtraData (Senses l) =>
      flat_map (fun t =>
        match t_targets t with
        | [] => []
        | target :: _ => [single_translation word (t_pos t) target]
        end) l
  | ExtraData _ => [sentinel word]
  end.

(** The lines of the lexicon that belong to a word. *)
Definition senses_of (word : pystr) (lexicon : list line) : list line :=
  filter (fun l => Source l = word) lexicon.

End HitApi.

(** * lexikon_v2.py *)
Module LexikonV2.

Definition filename : pystr := py "VerneVoyage_short.txt".
Definition target_language : pystr := py "en".
Definition source_language : pystr := py "fr".

(** What the program reads of a spaCy token. *)
Record token := {
  is_alpha : bool;
  is_stop : bool;
  pos_ : pystr;
  lemma_ : pystr
}.

Definition undesirable_pos : list pystr :=
  [py "SPACE"; py "PUNCT"; py "SYM"; py "NUM"; py "X"; py "DET"; py "ADP";
   py "SCONJ"; py "CCONJ"; py "AUX"].

(** The tuple [('y', 'a', 'à', 'ô', 'ç')]. *)
Definition one_letter_words : list pystr :=
  [py "y"; py "a"; [224]; [244]; [231]].

(** One dict of a word's list in [lexicon_data]. *)
Record sense := { pos : pystr; translation : pystr }.

Section Program.
(** [str.lower], the spaCy pipeline [nlp] and the client's
    [translate_text(contents, target_language_code, source_language_code)],
    which answers with the [translated_text] of each translation, are the
    libraries'. *)
Variable lower : pystr -> pystr.
Variable nlp : pystr -> list token.
Variable translate_text : list pystr -> pystr -> pystr -> res (list pystr).

(** [for token in doc: ...] on the dict [unique_lemmas]. *)
Fixpoint collect_lemmas (doc : list token)
    (unique_lemmas : gmap pystr pystr) : gmap pystr pystr :=
  match doc with
  | [] => unique_lemmas
  | token :: rest =>
      if is_alpha token && negb (is_stop token)
         && bool_decide (pos_ token ∉ undesirable_pos)
      then
        let lemma := strip (lower (lemma_ token)) in
        if (1 <? length lemma)%nat
           || ((length lemma =? 1)%nat
               && bool_decide (lemma ∉ one_letter_words))
        then
          match unique_lemmas !! lemma with
          | None => collect_lemmas rest (<[lemma := pos_ token]> unique_lemmas)
          | Some _ => collect_lemmas rest unique_lemmas
          end
        else collect_lemmas rest unique_lemmas
      else collect_lemmas rest unique_lemmas
  end.

Definition extract_unique_lemmas (text : pystr) : list pystr :=
  let doc := nlp text in
  let unique_lemmas := collect_lemmas doc ∅ in
  sorted (map fst (map_to_list unique_lemmas)).

(** The lemma that a token gives to [unique_lemmas]: the one computed in
    the loop, when the token goes through its two tests. *)
Definition kept_lemma (t : token) : option pystr :=
  if is_alpha t && negb (is_stop t)
     && bool_decide (pos_ t ∉ undesirable_pos)
  then
    let lemma := strip (lower (lemma_ t)) in
    if (1 <? length lemma)%nat
       || ((length lemma =? 1)%nat
           && bool_decide (lemma ∉ one_letter_words))
    then Some lemma
    else None
  else None.

(** [for i, translation in enumerate(response.translations): ...];
    [words[i]] raises past the end of [words]. *)
Fixpoint fill_lexicon (words : list pystr) (i : nat)
    (translations : list pystr) (lexicon_data : gmap pystr (list sense))
    : res (gmap pystr (list sense)) :=
  match translations with
  | [] => Ok lexicon_data
  | translated_text :: rest =>
      match words !! i with
      | None => Raise IndexError
      | Some source_word =>
          fill_lexicon words (S i) rest
            (<[source_word :=
                 [{| pos := py "?"; translation := translated_text |}]]>
               lexicon_data)
      end
  end.

Definition translate_word_list (words : list pystr) (target_lang : pystr)
    : res (gmap pystr (list sense)) :=
  let! response := translate_text words target_lang source_language in
  fill_lexicon words 0 response ∅.

(** [if word in data and data[word]: ...] keeps the first sense. *)
Definition output_lines (data : gmap pystr (list sense))
    (spacy_lemmas : list pystr) : list pystr :=
  flat_map (fun word =>
    match data !! word with
    | Some (first :: _) => [word ++ py " - " ++ translation first]
    | _ => []
    end) spacy_lemmas.

Definition format_lexicon_output (data : gmap pystr (list sense))
    (spacy_lemmas : list pystr) : pystr :=
  join [NEWLINE] (output_lines data spacy_lemmas).

(** The main block on the text loaded: what is saved to
    [lexicon_output.txt], or nothing when the text is empty. *)
Definition main (text_content : pystr) : res (option pystr) :=
  match text_content with
  | [] => Ok None
  | _ =>
      let unique_lemmas := extract_unique_lemmas text_content in
      let! translated_data := translate_word_list unique_lemmas target_language in
      let final_output := format_lexicon_output translated_data unique_lemmas in
      Ok (Some final_output)
  end.
(** The files of the main block, as a map from paths to contents.
    [load_text] gives the empty string for a file that is not there, and
    [save_output] writes the whole content of a file. *)
Definition load_text (files : gmap pystr pystr) (file_path : pystr) : pystr :=
  match files !! file_path with
  | Some content => content
  | None => []
  end.

Definition save_output (content output_file : pystr)
    (files : gmap pystr pystr) : gmap pystr pystr :=
  <[output_file := content]> files.

(** The main block on the files: the files it leaves, and how it ends. *)
Definition run (files : gmap pystr pystr) : gmap pystr pystr * res unit :=
  let text_content := load_text files filename in
  match text_content with
  | [] => (files, Ok tt)
  | _ =>
      let unique_lemmas := extract_unique_lemmas text_content in
      let files :=
        save_output (join [NEWLINE] unique_lemmas) (py "unique_lemmas.txt") files in
      match translate_word_list unique_lemmas target_language with
      | Raise e => (files, Raise e)
      | Ok translated_data =>
          let final_output :=
            format_lexicon_output translated_data unique_lemmas in
          (save_output final_output (py "lexicon_output.txt") files, Ok tt)
      end
  end.
End Program.

End LexikonV2.

(** * Instances to run the programs on *)

(** [str.lower] on the Basic Latin and Latin-1 blocks and on U+0152 and
    U+0178. *)
Definition lower_char (c : char) : char :=
  if ((65 <=? c) && (c <=? 90))
     || ((192 <=? c) && (c <=? 222) && negb (c =? 215))
  then c + 32
  else if c =? 338 then 339
  else if c =? 376 then 255
  else c.

Definition lower_latin (text : pystr) : pystr := map lower_char text.

(** A few of NLTK's French stop words. *)
Definition stopwords_sample : list pystr :=
  [py "le"; py "la"; py "les"; py "et"; py "un"; py "une"; py "de"; py "du"].

(** A backend for [translate] with two senses for one word, one for
    another, and none for the rest. *)
Definition translate_sample (word source_language : pystr) : HitApi.answer :=
  if decide (word = py "voler") then
    HitApi.ExtraData (HitApi.Senses
      [ {| HitApi.t_pos := py "VERB"; HitApi.t_targets := [py "to fly"] |};
        {| HitApi.t_pos := py "VERB"; HitApi.t_targets := [py "to steal"] |} ])
  else if decide (word = py "chat") then
    HitApi.ExtraData (HitApi.Senses
      [ {| HitApi.t_pos := py "NOUN"; HitApi.t_targets := [py "cat"; py "tomcat"] |} ])
  else if decide (word = py "mangent") then HitApi.ExtraData HitApi.Null
  else HitApi.ExtraData HitApi.Absent.

(** The same backend, raising on one word. *)
Definition translate_failing (word source_language : pystr) : HitApi.answer :=
  if decide (word = py "souris") then HitApi.Raises
  else translate_sample word source_language.

(** Backends whose results have no [extra_data], or an empty list of
    translations. *)
Definition translate_plain (word source_language : pystr) : HitApi.answer :=
  HitApi.Plain.

Definition translate_empty (word source_language : pystr) : HitApi.answer :=
  HitApi.ExtraData (HitApi.Senses []).

(** A tagger that takes every word of the text for a noun that is its own
    lemma. *)
Definition nlp_sample (text : pystr) : list LexikonV2.token :=
  map (fun word =>
         {| LexikonV2.is_alpha := forallb HitApi.is_letter (lower_latin word);
            LexikonV2.is_stop := bool_decide (lower_latin word ∈ stopwords_sample);
            LexikonV2.pos_ := py "NOUN";
            LexikonV2.lemma_ := word |})
      (split text).

(** A batch backend that answers with the same list whatever it is asked. *)
Definition translate_text_const (response : list pystr)
    (contents : list pystr) (target_language_code source_language_code : pystr)
    : res (list pystr) :=
  Ok response.

(** * Running the programs *)

Example clean_ex :
  HitApi.clean lower_latin stopwords_sample (py "Le chat,  et la SOURIS mangent.")
  = py "chat souris mangent".
Proof. vm_compute. reflexivity. Qed.

Example process_ex :
  HitApi.process lower_latin stopwords_sample (py "la souris et le chat; le chat!")
  = [py "chat"; py "souris"].
Proof. vm_compute. reflexivity. Qed.

(** * The order on strings *)

Section StrOrder.
Implicit Types s t u : pystr.

Lemma str_ltb_irrefl s : str_ltb s s = false.
Proof.
  induction s as [|a s IH]; simpl; [done|].
  rewrite N.ltb_irrefl, N.eqb_refl. simpl. exact IH.
Qed.

Lemma str_ltb_cons a b s t :
  str_ltb (a :: s) (b :: t) = true <-> a < b \/ (a = b /\ str_ltb s t = true).
Proof.
  simpl. rewrite orb_true_iff, andb_true_iff, N.ltb_lt, N.eqb_eq. tauto.
Qed.

Lemma str_ltb_trans s t u :
  str_ltb s t = true -> str_ltb t u = true -> str_ltb s u = true.
Proof.
  revert t u. induction s as [|a s IH]; intros [|b t] [|c u]; try done.
  rewrite !str_ltb_cons. intros [Hab|[-> Hst]] [Hbc|[-> Htu]].
  - left. lia.
  - by left.
  - by left.
  - right. eauto.
Qed.

Lemma str_ltb_trichotomy s t :
  str_ltb s t = true \/ s = t \/ str_ltb t s = true.
Proof.
  revert t. induction s as [|a s IH]; intros [|b t]; simpl; auto.
  destruct (N.lt_trichotomy a b) as [Hlt|[->|Hgt]].
  - left. apply str_ltb_cons. by left.
  - destruct (IH t) as [H|[->|H]].
    + left. apply str_ltb_cons. by right.
    + by right; left.
    + right; right. apply str_ltb_cons. by right.
  - right; right. apply str_ltb_cons. by left.
Qed.

Lemma str_ltb_asym s t : str_ltb s t = true -> str_ltb t s = false.
Proof.
  intros H. destruct (str_ltb t s) eqn:E; [|done].
  pose proof (str_ltb_trans _ _ _ H E) as Hss.
  by rewrite str_ltb_irrefl in Hss.
Qed.

Lemma str_le_lt_eq s t : str_le s t <-> str_lt s t \/ s = t.
Proof.
  unfold str_le, str_lt. split.
  - intros H. destruct (str_ltb_trichotomy s t) as [?|[?|?]]; [auto..|congruence].
  - intros [H| ->]; [by apply str_ltb_asym | apply str_ltb_irrefl].
Qed.

Global Instance str_le_refl : Reflexive str_le.
Proof. intros s. apply str_ltb_irrefl. Qed.

Global Instance str_le_trans : Transitive str_le.
Proof.
  intros s t u. rewrite !str_le_lt_eq. unfold str_lt.
  intros [Hst| ->] [Htu| ->]; eauto using str_ltb_trans.
Qed.

Global Instance str_le_total : Total str_le.
Proof.
  intros s t. unfold str_le.
  destruct (str_ltb_trichotomy s t) as [H|[->|H]].
  - left. by apply str_ltb_asym.
  - left. apply str_ltb_irrefl.
  - right. by apply str_ltb_asym.
Qed.

Global Instance str_le_antisym : AntiSymm (=) str_le.
Proof.
  intros s t. unfold str_le. intros H1 H2.
  destruct (str_ltb_trichotomy s t) as [?|[?|?]]; congruence.
Qed.

Global Instance str_lt_irrefl : Irreflexive str_lt.
Proof. intros s. unfold complement, str_lt. by rewrite str_ltb_irrefl. Qed.

Global Instance str_lt_trans : Transitive str_lt.
Proof. intros s t u. apply str_ltb_trans. Qed.
End StrOrder.

(** * Sorting *)

Section Sorted.
Implicit Types l k : list pystr.

Lemma sorted_Sorted l : Sorted str_le (sorted l).
Proof. apply Sorted_merge_sort; apply _. Qed.

Lemma sorted_Permutation l : sorted l ≡ₚ l.
Proof. apply merge_sort_Permutation. Qed.

Lemma elem_of_sorted l w : w ∈ sorted l <-> w ∈ l.
Proof. by rewrite sorted_Permutation. Qed.

(** The result of [sorted] does not depend on the order of its input:
    whatever order a set or the keys of a dict are listed in. *)
Lemma sorted_order_irrelevant l k : l ≡ₚ k -> sorted l = sorted k.
Proof.
  intros Hlk. apply (Sorted_unique str_le); [apply sorted_Sorted..|].
  by rewrite !sorted_Permutation.
Qed.

Lemma sorted_fixed l : Sorted str_le l -> sorted l = l.
Proof.
  intros Hl. apply (Sorted_unique str_le); [apply sorted_Sorted|done|].
  apply sorted_Permutation.
Qed.

Lemma Sorted_lt_le l : Sorted str_lt l -> Sorted str_le l.
Proof.
  induction 1 as [|w l _ IH Hhd]; constructor; [done|].
  destruct Hhd; constructor. apply str_le_lt_eq. by left.
Qed.

Lemma Sorted_le_NoDup_lt l : Sorted str_le l -> NoDup l -> Sorted str_lt l.
Proof.
  induction 1 as [|w l _ IH Hhd]; intros Hnd; [constructor|].
  apply NoDup_cons in Hnd as [Hw Hnd]. constructor; [auto|].
  destruct Hhd as [|v l Hwv]; constructor.
  apply str_le_lt_eq in Hwv as [?| ->]; [done|].
  exfalso. apply Hw. by left.
Qed.

Lemma Sorted_lt_NoDup l : Sorted str_lt l -> NoDup l.
Proof.
  intros Hl. apply Sorted_StronglySorted in Hl; [|apply _].
  induction Hl as [|w l _ IH Hall]; constructor; [|done].
  intros Hin. rewrite Forall_forall in Hall.
  by apply (irreflexivity str_lt w), Hall.
Qed.
End Sorted.

(** * Deduplication *)

Section Dedupe.
Import HitApi LexikonV2.
Implicit Types S l : list pystr.

Lemma elem_of_normalize S w : w ∈ normalize S <-> w ∈ S.
Proof.
  unfold normalize. by rewrite elem_of_sorted, elem_of_elements, elem_of_list_to_set.
Qed.

Lemma normalize_NoDup S : NoDup (normalize S).
Proof.
  unfold normalize. rewrite sorted_Permutation. apply NoDup_elements.
Qed.

Lemma normalize_increasing S : Sorted str_lt (normalize S).
Proof.
  apply Sorted_le_NoDup_lt; [apply sorted_Sorted | apply normalize_NoDup].
Qed.

Lemma normalize_fixed S : NoDup S -> Sorted str_le S -> normalize S = S.
Proof.
  intros Hnd Hs. unfold normalize.
  rewrite (sorted_order_irrelevant _ S) by by apply elements_list_to_set.
  by apply sorted_fixed.
Qed.

(** The order in which the set lists its elements does not show. *)
Lemma normalize_any_listing S l :
  NoDup l -> (forall w, w ∈ l <-> w ∈ S) -> sorted l = normalize S.
Proof.
  intros Hnd Hl. apply sorted_order_irrelevant, NoDup_Permutation; [done|apply NoDup_elements|].
  intros w. by rewrite Hl, elem_of_elements, elem_of_list_to_set.
Qed.

Variable lower : pystr -> pystr.
Variable nlp : pystr -> list token.

Lemma extract_unique_lemmas_NoDup text :
  NoDup (extract_unique_lemmas lower nlp text).
Proof.
  unfold extract_unique_lemmas. rewrite sorted_Permutation.
  apply NoDup_fst_map_to_list.
Qed.

Lemma extract_unique_lemmas_increasing text :
  Sorted str_lt (extract_unique_lemmas lower nlp text).
Proof.
  apply Sorted_le_NoDup_lt; [apply sorted_Sorted | apply extract_unique_lemmas_NoDup].
Qed.

Lemma elem_of_extract_unique_lemmas text w :
  w ∈ extract_unique_lemmas lower nlp text
  <-> is_Some (collect_lemmas lower (nlp text) ∅ !! w).
Proof.
  unfold extract_unique_lemmas. rewrite elem_of_sorted, list_elem_of_fmap. split.
  - intros [[k v] [-> Hkv]]. apply elem_of_map_to_list in Hkv. by exists v.
  - intros [v Hv]. exists (w, v). split; [done|]. by apply elem_of_map_to_list.
Qed.
End Dedupe.

(** C6. Deduplication is idempotent: [normalize (normalize S) = normalize S]
    for every sequence [S] of base forms, and a sequence that is already
    without duplicates and sorted is returned unchanged; the sorted list of
    lemmas that [extract_unique_lemmas] returns is such a sequence. *)
Theorem dedupe_idempotent (S : list pystr) :
  HitApi.normalize (HitApi.normalize S) = HitApi.normalize S
  /\ (NoDup S -> Sorted str_le S -> HitApi.normalize S = S)
  /\ (forall lower nlp text,
        HitApi.normalize (LexikonV2.extract_unique_lemmas lower nlp text)
        = LexikonV2.extract_unique_lemmas lower nlp text).
Proof.
  split; [|split].
  - apply normalize_fixed; [apply normalize_NoDup|].
    apply Sorted_lt_le, normalize_increasing.
  - apply normalize_fixed.
  - intros lower nlp text. apply normalize_fixed.
    + apply extract_unique_lemmas_NoDup.
    + apply sorted_Sorted.
Qed.

Lemma dedupe_idempotent_witness :
  HitApi.normalize [py "chat"; py "souris"] = [py "chat"; py "souris"].
Proof.
  destruct (dedupe_idempotent [py "chat"; py "souris"]) as (_ & Hfixed & _).
  apply Hfixed.
  - apply (bool_decide_unpack _). vm_compute. exact I.
  - repeat first [apply Sorted_cons | apply Sorted_nil | apply HdRel_cons | apply HdRel_nil];
      vm_compute; reflexivity.
Defined.

(** C7. The deduplicated output is strictly increasing in the order of
    [str], each base form strictly less than the next, and so has no
    duplicates; this holds for [normalize] and for the list that
    [extract_unique_lemmas] returns. *)
Theorem dedupe_strictly_increasing (S : list pystr) :
  (Sorted str_lt (HitApi.normalize S) /\ NoDup (HitApi.normalize S))
  /\ (forall lower nlp text,
        Sorted str_lt (LexikonV2.extract_unique_lemmas lower nlp text)
        /\ NoDup (LexikonV2.extract_unique_lemmas lower nlp text)).
Proof.
  split.
  - split; [apply normalize_increasing | apply normalize_NoDup].
  - intros lower nlp text.
    split; [apply extract_unique_lemmas_increasing | apply extract_unique_lemmas_NoDup].
Qed.

(** * Splitting and joining *)

Section Words.
Implicit Types (c : char) (w s text : pystr) (ws : list pystr).

Lemma split_cons_space c text : is_space c = true -> split (c :: text) = split text.
Proof. intros H. simpl. by rewrite H. Qed.

Lemma Forall_cons_word (P : pystr -> Prop) c ws :
  (forall w, P w -> P (c :: w)) -> P [c] -> Forall P ws -> Forall P (cons_word c ws).
Proof.
  intros Hstep Hone Hws. destruct Hws as [|w ws Hw Hws]; simpl; constructor; auto.
Qed.

Lemma split_words text : Forall is_word (split text).
Proof.
  induction text as [|c rest IH]; simpl; [constructor|].
  destruct (is_space c) eqn:Hc; [done|].
  assert (is_word [c]) as Hone by (split; [done | by constructor]).
  destruct rest as [|d rest']; [by constructor|].
  destruct (is_space d) eqn:Hd; [by constructor|].
  apply Forall_cons_word; [|done..].
  intros w [_ Hw]. split; [done | by constructor].
Qed.

Lemma split_chars (P : char -> Prop) text :
  Forall P text -> Forall (Forall P) (split text).
Proof.
  induction 1 as [|c rest Hc Hrest IH]; simpl; [constructor|].
  destruct (is_space c); [done|].
  assert (Forall P [c]) as Hone by by constructor.
  destruct rest as [|d rest']; [by constructor|].
  destruct (is_space d); [by constructor|].
  apply Forall_cons_word; [|done..]. intros w Hw. by constructor.
Qed.

Lemma split_no_word text :
  Forall (fun c => is_space c = true) text -> split text = [].
Proof.
  induction 1 as [|c rest Hc _ IH]; [done|]. by rewrite split_cons_space.
Qed.

Lemma split_cons_letter c d text :
  is_space c = false ->
  split (c :: d :: text)
  = if is_space d then [c] :: split (d :: text)
    else cons_word c (split (d :: text)).
Proof. intros H. cbn [split]. by rewrite H. Qed.

Lemma split_word_app w s :
  is_word w -> split (w ++ SPACE :: s) = w :: split s.
Proof.
  intros [Hne Hw]. induction Hw as [|c w' Hc Hw' IH]; [done|].
  destruct w' as [|d w'']; cbn [app].
  - rewrite split_cons_letter by done. done.
  - inversion Hw' as [|? ? Hd _]; subst.
    rewrite split_cons_letter, Hd by done.
    change (d :: w'' ++ SPACE :: s) with ((d :: w'') ++ SPACE :: s).
    by rewrite IH.
Qed.

Lemma split_word w : is_word w -> split w = [w].
Proof.
  intros [Hne Hw]. induction Hw as [|c w' Hc Hw' IH]; [done|].
  destruct w' as [|d w'']; [by cbn; rewrite Hc|].
  inversion Hw' as [|? ? Hd _]; subst.
  rewrite split_cons_letter, Hd by done. by rewrite IH.
Qed.

Lemma join_cons sep w v ws :
  join sep (w :: v :: ws) = w ++ sep ++ join sep (v :: ws).
Proof. done. Qed.

(** Splitting what was joined with single spaces gives the words back. *)
Lemma split_join ws : Forall is_word ws -> split (join [SPACE] ws) = ws.
Proof.
  induction 1 as [|w ws Hw Hws IH]; [done|].
  destruct ws as [|v ws]; [by apply split_word|].
  rewrite join_cons. cbn [app]. by rewrite split_word_app, IH.
Qed.

Lemma join_nil_inv ws : Forall is_word ws -> join [SPACE] ws = [] -> ws = [].
Proof.
  intros Hws Hj. destruct Hws as [|w ws [Hne _] _]; [done|].
  destruct ws; simpl in Hj; [done|]. by destruct w.
Qed.

Lemma join_head ws :
  Forall is_word ws -> head (join [SPACE] ws) = hd_error ws ≫= head.
Proof.
  intros Hws. destruct Hws as [|w ws [Hne _] _]; [done|].
  destruct ws; simpl; [done|]. by destruct w.
Qed.
End Words.

(** * Cleaning *)

Section Clean.
Import HitApi.
Implicit Types (c : char) (w s text : pystr) (ws : list pystr).

Lemma is_letter_not_space c : is_letter c = true -> is_space c = false.
Proof.
  unfold is_letter. rewrite orb_true_iff, andb_true_iff, !N.leb_le, bool_decide_eq_true.
  intros [[? ?]|Hin].
  - unfold is_space.
    repeat (apply orb_false_iff; split);
      rewrite ?andb_false_iff, ?N.leb_gt, ?N.eqb_neq; lia.
  - repeat (apply elem_of_cons in Hin as [->|Hin]; [done|]).
    by apply elem_of_nil in Hin.
Qed.

Lemma in_class_inv c : in_class c = true -> is_letter c = true \/ c = SPACE.
Proof.
  unfold in_class. rewrite orb_true_iff, N.eqb_eq. tauto.
Qed.

Lemma in_class_not_space c :
  in_class c = true -> is_space c = false -> is_letter c = true.
Proof. intros [?| ->]%in_class_inv; [done|]. by vm_compute. Qed.

Lemma is_letter_in_class c : is_letter c = true -> in_class c = true.
Proof. unfold in_class. by intros ->. Qed.

Lemma is_letter_word_is_word w : is_letter_word w -> is_word w.
Proof.
  intros [Hne Hw]. split; [done|].
  eapply Forall_impl; [exact Hw|]. apply is_letter_not_space.
Qed.

Lemma remove_punctuation_class text :
  Forall (fun c => in_class c = true) (remove_punctuation text).
Proof.
  unfold remove_punctuation. apply Forall_fmap, Forall_true. intros c. simpl.
  by destruct (in_class c) eqn:E.
Qed.

Lemma remove_punctuation_fixed text :
  Forall (fun c => in_class c = true) text -> remove_punctuation text = text.
Proof.
  unfold remove_punctuation. induction 1 as [|c text Hc _ IH]; [done|].
  simpl. by rewrite Hc, IH.
Qed.

Lemma split_letter_words text :
  Forall (fun c => in_class c = true) text -> Forall is_letter_word (split text).
Proof.
  intros Htext. pose proof (split_words text) as Hw.
  pose proof (split_chars _ _ Htext) as Hc.
  rewrite Forall_forall in *. intros w Hin.
  destruct (Hw w Hin) as [Hne Hns]. split; [done|].
  specialize (Hc w Hin). rewrite Forall_forall in *.
  intros c Hcw. apply in_class_not_space; auto.
Qed.

(** ** Texts of letter words joined by single spaces *)

Lemma join_class ws :
  Forall is_letter_word ws ->
  Forall (fun c => in_class c = true) (join [SPACE] ws).
Proof.
  induction 1 as [|w ws [_ Hw] Hws IH]; [constructor|].
  assert (Forall (fun c => in_class c = true) w) as Hw'.
  { eapply Forall_impl; [exact Hw|]. apply is_letter_in_class. }
  destruct ws as [|v ws]; [done|].
  rewrite join_cons. apply Forall_app; split; [done|].
  apply Forall_app; split; [|done]. by repeat constructor.
Qed.

Lemma doubled_space_cons c s :
  doubled_space (c :: s) <-> (c = SPACE /\ head s = Some SPACE) \/ doubled_space s.
Proof.
  split.
  - intros ([|c' l1] & l2 & E); simplify_eq/=; [by left|].
    right. by exists l1, l2.
  - intros [[-> Hs]|(l1 & l2 & ->)].
    + destruct s as [|d s]; simplify_eq/=. by exists [], s.
    + by exists (c :: l1), l2.
Qed.

Lemma doubled_space_nil : ~ doubled_space [].
Proof. intros ([|??] & ? & ?); done. Qed.

Lemma is_letter_SPACE c : is_letter c = true -> c ≠ SPACE.
Proof. intros H ->. by vm_compute in H. Qed.

Lemma doubled_space_word_app w s :
  Forall (fun c => is_letter c = true) w ->
  doubled_space (w ++ s) -> w ≠ [] -> doubled_space s.
Proof.
  induction 1 as [|c w Hc Hw IH]; [done|]. intros Hd _.
  cbn [app] in Hd. apply doubled_space_cons in Hd as [[-> _]|Hd].
  - by apply is_letter_SPACE in Hc.
  - destruct w as [|d w]; [done|]. by apply IH.
Qed.

Lemma join_head_letter ws c :
  Forall is_letter_word ws -> head (join [SPACE] ws) = Some c -> is_letter c = true.
Proof.
  intros Hws. destruct Hws as [|w ws [Hne Hw] _]; [done|].
  destruct w as [|d w]; [done|]. inversion Hw; subst.
  destruct ws; simpl; congruence.
Qed.

Lemma join_not_doubled ws :
  Forall is_letter_word ws -> ~ doubled_space (join [SPACE] ws).
Proof.
  induction 1 as [|w ws [Hne Hw] Hws IH]; [apply doubled_space_nil|].
  destruct ws as [|v ws].
  - intros Hd. rewrite <-(app_nil_r w) in Hd.
    apply doubled_space_word_app in Hd; [|done..]. by apply doubled_space_nil in Hd.
  - rewrite join_cons. intros Hd.
    apply doubled_space_word_app in Hd; [|done..]. cbn [app] in Hd.
    apply doubled_space_cons in Hd as [[_ Hhd]|Hd]; [|done].
    by apply join_head_letter, is_letter_SPACE in Hhd.
Qed.

Lemma join_last_letter ws c :
  Forall is_letter_word ws -> last (join [SPACE] ws) = Some c -> is_letter c = true.
Proof.
  induction 1 as [|w ws [Hne Hw] Hws IH]; [done|].
  destruct ws as [|v ws].
  - simpl. intros Hl. rewrite Forall_forall in Hw. apply Hw.
    by apply last_Some_elem_of.
  - rewrite join_cons. cbn [app]. rewrite last_app_cons.
    assert (join [SPACE] (v :: ws) ≠ []) as Hj.
    { intros Hj. apply join_nil_inv in Hj; [done|].
      eapply Forall_impl; [exact Hws|]. apply is_letter_word_is_word. }
    destruct (join [SPACE] (v :: ws)) as [|d j] eqn:E; [done|].
    rewrite last_cons_cons. exact IH.
Qed.

Lemma normalize_whitespace_word_app w s :
  Forall (fun c => is_space c = false) w ->
  normalize_whitespace (w ++ s) = w ++ normalize_whitespace s.
Proof.
  induction 1 as [|c w Hc _ IH]; [done|]. cbn [app normalize_whitespace].
  by rewrite Hc, IH.
Qed.

Lemma normalize_whitespace_join ws :
  Forall is_word ws -> normalize_whitespace (join [SPACE] ws) = join [SPACE] ws.
Proof.
  induction 1 as [|w ws [Hne Hw] Hws IH].
  { done. }
  destruct ws as [|v ws].
  - simpl. rewrite <-(app_nil_r w) at 1.
    rewrite normalize_whitespace_word_app by done. simpl. by rewrite app_nil_r.
  - rewrite join_cons, normalize_whitespace_word_app by done. f_equal.
    inversion Hws as [|? ? [Hv Hvs] _]; subst.
    destruct v as [|d v]; [done|]. inversion Hvs as [|? ? Hd _]; subst.
    revert IH. destruct ws; simpl; rewrite Hd; by intros ->.
Qed.
End Clean.

Section CleanProgram.
Import HitApi.
Variable lower : pystr -> pystr.
Variable stopwords : list pystr.
Implicit Types (c : char) (w s text : pystr) (ws : list pystr).

(** What [clean] returns: the words kept, joined by single spaces. *)
Lemma clean_words text :
  exists ws,
    clean lower stopwords text = join [SPACE] ws
    /\ Forall is_letter_word ws
    /\ Forall (fun w => w ∉ stopwords) ws.
Proof.
  exists (filter (fun word => word ∉ stopwords)
            (split (remove_punctuation (lower text)))).
  pose proof (split_letter_words _ (remove_punctuation_class (lower text))) as Hws.
  assert (Forall is_letter_word
            (filter (fun word => word ∉ stopwords)
               (split (remove_punctuation (lower text))))) as Hkept.
  { rewrite Forall_forall in *. intros w [_ Hin]%list_elem_of_filter. auto. }
  split; [|split].
  - unfold clean, remove_stop_words. apply normalize_whitespace_join.
    eapply Forall_impl; [exact Hkept|]. apply is_letter_word_is_word.
  - done.
  - apply Forall_forall. by intros w [? _]%list_elem_of_filter.
Qed.

Lemma split_clean text ws :
  clean lower stopwords text = join [SPACE] ws ->
  Forall is_letter_word ws ->
  split (clean lower stopwords text) = ws.
Proof.
  intros -> Hws. apply split_join.
  eapply Forall_impl; [exact Hws|]. apply is_letter_word_is_word.
Qed.

Lemma filter_all_kept ws :
  Forall (fun w => w ∉ stopwords) ws ->
  filter (fun word => word ∉ stopwords) ws = ws.
Proof.
  induction 1 as [|w ws Hw _ IH]; [done|].
  rewrite filter_cons_True by done. by rewrite IH.
Qed.

Lemma process_letter_words text w :
  w ∈ process lower stopwords text -> is_letter_word w.
Proof.
  unfold process, to_unique_list, to_list. rewrite elem_of_normalize.
  destruct (clean_words text) as (ws & Hc & Hws & _).
  rewrite (split_clean _ _ Hc Hws). intros Hin.
  rewrite Forall_forall in Hws. auto.
Qed.
End CleanProgram.

Lemma lower_latin_fixed (s : pystr) :
  Forall (fun c => HitApi.in_class c = true) s -> lower_latin s = s.
Proof.
  unfold lower_latin. induction 1 as [|c s Hc _ IH]; [done|].
  cbn [map]. f_equal; [|done]. clear IH.
  apply in_class_inv in Hc as [Hc| ->]; [|done].
  unfold HitApi.is_letter in Hc.
  rewrite orb_true_iff, andb_true_iff, !N.leb_le, bool_decide_eq_true in Hc.
  destruct Hc as [[? ?]|Hin].
  - unfold lower_char.
    assert (((65 <=? c) && (c <=? 90)) = false) as ->
      by (rewrite andb_false_iff, !N.leb_gt; lia).
    assert (((192 <=? c) && (c <=? 222)) = false) as ->
      by (rewrite andb_false_iff, !N.leb_gt; lia).
    simpl.
    assert ((c =? 338) = false) as -> by (rewrite N.eqb_neq; lia).
    assert ((c =? 376) = false) as -> by (rewrite N.eqb_neq; lia).
    done.
  - repeat (apply elem_of_cons in Hin as [->|Hin]; [done|]).
    by apply elem_of_nil in Hin.
Qed.

(** C5. For every input string, [clean] returns a string of source-alphabet
    letters and spaces only, with no space at either end and no two spaces
    in a row; it is total, and it returns the empty string when the
    lower-cased input has no letter of the source alphabet. *)
Theorem clean_normal_form (lower : pystr -> pystr) (stopwords : list pystr)
    (text : pystr) :
  let output := HitApi.clean lower stopwords text in
  Forall (fun c => HitApi.is_letter c = true \/ c = SPACE) output
  /\ head output ≠ Some SPACE
  /\ last output ≠ Some SPACE
  /\ ~ doubled_space output
  /\ (Forall (fun c => HitApi.is_letter c = false) (lower text) -> output = []).
Proof.
  intros output. subst output.
  destruct (clean_words lower stopwords text) as (ws & Hc & Hws & _).
  repeat split.
  - rewrite Hc. eapply Forall_impl; [by apply join_class|]. apply in_class_inv.
  - rewrite Hc. intros Hhd. by apply join_head_letter, is_letter_SPACE in Hhd.
  - rewrite Hc. intros Hl. by apply join_last_letter, is_letter_SPACE in Hl.
  - rewrite Hc. by apply join_not_doubled.
  - intros Hno. unfold HitApi.clean, HitApi.remove_stop_words.
    rewrite split_no_word; [done|].
    unfold HitApi.remove_punctuation. apply Forall_fmap.
    eapply Forall_impl; [exact Hno|]. intros c Hc'. simpl.
    destruct (HitApi.in_class c) eqn:E; [|done].
    apply in_class_inv in E as [?| ->]; [congruence|done].
Qed.

Lemma clean_normal_form_witness :
  HitApi.clean lower_latin stopwords_sample (py "1863, 19 !") = [].
Proof.
  apply (clean_normal_form lower_latin stopwords_sample (py "1863, 19 !")).
  apply (bool_decide_unpack _). vm_compute. exact I.
Defined.

(** C10. [clean] is idempotent: cleaning a cleaned text again changes
    nothing, [str.lower] leaving a text of lower-case letters of the class
    and spaces as it is. *)
Theorem clean_idempotent (lower : pystr -> pystr) (stopwords : list pystr)
    (lower_fixed :
       forall s, Forall (fun c => HitApi.in_class c = true) s -> lower s = s)
    (text : pystr) :
  HitApi.clean lower stopwords (HitApi.clean lower stopwords text)
  = HitApi.clean lower stopwords text.
Proof.
  destruct (clean_words lower stopwords text) as (ws & Hc & Hws & Hkept).
  rewrite Hc.
  assert (Forall is_word ws) as Hws'.
  { eapply Forall_impl; [exact Hws|]. apply is_letter_word_is_word. }
  pose proof (join_class _ Hws) as Hclass.
  unfold HitApi.clean, HitApi.remove_stop_words.
  rewrite (lower_fixed _ Hclass), (remove_punctuation_fixed _ Hclass).
  rewrite (split_join _ Hws'), (filter_all_kept _ _ Hkept).
  by apply normalize_whitespace_join.
Qed.

Lemma clean_idempotent_witness :
  let text := py "Le chat,  et la SOURIS mangent." in
  HitApi.clean lower_latin stopwords_sample
    (HitApi.clean lower_latin stopwords_sample text)
  = HitApi.clean lower_latin stopwords_sample text.
Proof.
  exact (clean_idempotent lower_latin stopwords_sample lower_latin_fixed
           (py "Le chat,  et la SOURIS mangent.")).
Defined.

(** * Per-word resolution *)

Section PerWord.
Import HitApi.
Variable translate : pystr -> pystr -> answer.
Implicit Types (w v word : pystr) (ws words : list pystr)
  (lexicon : list line) (l : list translation).

Local Abbreviation answer_of w := (translate w (py "fr")).

Lemma append_translations_spec word l lexicon :
  (Forall (fun t => t_targets t ≠ []) l
   /\ append_translations word l lexicon
      = Ok (lexicon ++ lines_of word (ExtraData (Senses l))))
  \/ (~ Forall (fun t => t_targets t ≠ []) l
      /\ append_translations word l lexicon = Raise IndexError).
Proof.
  revert lexicon. induction l as [|t l IH]; intros lexicon.
  { left. split; [constructor|]. simpl. by rewrite app_nil_r. }
  cbn [append_translations lines_of flat_map].
  destruct (t_targets t) as [|target targets] eqn:Ht.
  - right. split; [|done]. intros Hall. inversion Hall; subst. congruence.
  - destruct (IH (lexicon ++ [single_translation word (t_pos t) target]))
      as [[Hall ->]|[Hnot ->]].
    + left. split; [constructor; [congruence|done]|].
      simpl. by rewrite <-app_assoc.
    + right. split; [|done]. intros Hall. inversion Hall; subst. auto.
Qed.

Lemma resolve_word_ok word lexicon :
  answers (answer_of word) ->
  resolve_word translate word lexicon
  = Ok (lexicon ++ lines_of word (answer_of word)).
Proof.
  unfold resolve_word, query_one_word.
  destruct (answer_of word) as [| |[| |l]]; simpl; try done.
  - intros _. by rewrite app_nil_r.
  - intros Hall.
    destruct (append_translations_spec word l lexicon) as [[_ ->]|[Hnot _]]; done.
Qed.

Lemma resolve_word_raise word lexicon :
  ~ answers (answer_of word) ->
  exists e, resolve_word translate word lexicon = Raise e.
Proof.
  unfold resolve_word, query_one_word.
  destruct (answer_of word) as [| |[| |l]]; simpl; try done.
  - by exists BackendError.
  - intros Hnot.
    destruct (append_translations_spec word l lexicon) as [[? _]|[_ ->]]; [done|].
    by exists IndexError.
Qed.

Lemma resolve_word_cases word lexicon :
  (exists new, resolve_word translate word lexicon = Ok (lexicon ++ new))
  \/ (exists e, resolve_word translate word lexicon = Raise e).
Proof.
  unfold resolve_word, query_one_word.
  destruct (answer_of word) as [| |[| |l]]; simpl; eauto.
  - left. exists []. by rewrite app_nil_r.
  - destruct (append_translations_spec word l lexicon) as [[_ ->]|[_ ->]]; eauto.
Qed.

(** With answers for all words, the lexicon is the lines of the words,
    one word after the other. *)
Lemma build_lexicon_ok words lexicon :
  Forall (fun w => answers (answer_of w)) words ->
  build_lexicon translate words lexicon
  = Ok (lexicon ++ flat_map (fun w => lines_of w (answer_of w)) words).
Proof.
  intros Hall. revert lexicon.
  induction Hall as [|w words Hw _ IH]; intros lexicon; simpl.
  - by rewrite app_nil_r.
  - rewrite resolve_word_ok by done. simpl. by rewrite IH, <-app_assoc.
Qed.

(** One word without an answer ends the run, wherever it stands. *)
Lemma build_lexicon_raise words lexicon w :
  w ∈ words -> ~ answers (answer_of w) ->
  exists e, build_lexicon translate words lexicon = Raise e.
Proof.
  intros Hin Hw. revert lexicon.
  induction Hin as [w words|w v words _ IH]; intros lexicon; simpl.
  - destruct (resolve_word_raise w lexicon Hw) as [e ->]. by exists e.
  - destruct (resolve_word_cases v lexicon) as [[new ->]|[e ->]]; simpl.
    + by apply IH.
    + by exists e.
Qed.

Lemma lines_of_Source word a ln : ln ∈ lines_of word a -> Source ln = word.
Proof.
  destruct a as [| |[| |l]]; simpl; try by intros ?%elem_of_nil.
  - by intros ->%list_elem_of_singleton.
  - by intros ->%list_elem_of_singleton.
  - intros Hin. apply list_elem_of_In, in_flat_map in Hin as (t & _ & Hin).
    destruct (t_targets t); simpl in Hin; [done|]. by destruct Hin as [<-|[]].
Qed.

Lemma senses_of_own word a : senses_of word (lines_of word a) = lines_of word a.
Proof.
  unfold senses_of. pose proof (lines_of_Source word a) as Hsrc.
  induction (lines_of word a) as [|ln lns IH]; [done|].
  rewrite filter_cons_True by (apply Hsrc; by left).
  f_equal. apply IH. intros ? ?. apply Hsrc. by right.
Qed.

Lemma senses_of_other word v a : v ≠ word -> senses_of word (lines_of v a) = [].
Proof.
  intros Hne. unfold senses_of. pose proof (lines_of_Source v a) as Hsrc.
  induction (lines_of v a) as [|ln lns IH]; [done|].
  rewrite filter_cons_False.
  - apply IH. intros ? ?. apply Hsrc. by right.
  - rewrite (Hsrc ln) by by left. done.
Qed.

Lemma senses_of_app word lexicon lexicon' :
  senses_of word (lexicon ++ lexicon')
  = senses_of word lexicon ++ senses_of word lexicon'.
Proof. apply filter_app. Qed.

Lemma senses_of_absent word words :
  word ∉ words ->
  senses_of word (flat_map (fun w => lines_of w (answer_of w)) words) = [].
Proof.
  induction words as [|v words IH]; [done|]. intros Hnot.
  apply not_elem_of_cons in Hnot as [Hne Hnot]. simpl.
  rewrite senses_of_app, senses_of_other by done. by apply IH.
Qed.

(** In the lexicon of a list without duplicates, the lines of a word are
    those its own answer gave. *)
Lemma senses_of_lexicon word words :
  NoDup words -> word ∈ words ->
  senses_of word (flat_map (fun w => lines_of w (answer_of w)) words)
  = lines_of word (answer_of word).
Proof.
  induction 1 as [|v words Hv Hnd IH]; [by intros ?%elem_of_nil|].
  intros Hin. simpl. rewrite senses_of_app.
  destruct (decide (v = word)) as [->|Hne].
  - by rewrite senses_of_own, senses_of_absent, app_nil_r.
  - rewrite senses_of_other by done. simpl. apply IH.
    apply elem_of_cons in Hin as [?|?]; [congruence|done].
Qed.

Lemma lines_of_Senses word l :
  Forall (fun t => t_targets t ≠ []) l ->
  Forall2 (fun ln t =>
             Source ln = word /\ PartOfSpeech ln = t_pos t
             /\ head (t_targets t) = Some (Target ln))
    (lines_of word (ExtraData (Senses l))) l.
Proof.
  induction 1 as [|t l Ht _ IH]; simpl; [constructor|].
  destruct (t_targets t) as [|target targets] eqn:E; [done|].
  simpl. constructor; [|exact IH]. by rewrite E.
Qed.
End PerWord.

(** * Batch resolution *)

Section Batch.
Import LexikonV2.
Local Open Scope nat_scope.
Implicit Types (w : pystr) (words ts lemmas : list pystr)
  (data : gmap pystr (list sense)).

Local Abbreviation unknown t := {| pos := py "?"; translation := t |}.

(** The loop over the response, started at position [i]: the last item
    for a word is the one that stays, and the other keys are untouched. *)
Lemma fill_lexicon_spec words ts i data :
  i + length ts ≤ length words ->
  exists data',
    fill_lexicon words i ts data = Ok data'
    /\ (forall k w t,
          words !! (i + k) = Some w -> ts !! k = Some t ->
          (forall k', k < k' -> k' < length ts -> words !! (i + k') ≠ Some w) ->
          data' !! w = Some [unknown t])
    /\ (forall w,
          (forall k, k < length ts -> words !! (i + k) ≠ Some w) ->
          data' !! w = data !! w).
Proof.
  revert i data. induction ts as [|t0 ts IH]; intros i data Hlen.
  { exists data. split; [done|]. split; [|done]. intros k w t _ Hk. done. }
  cbn [length] in Hlen. cbn [fill_lexicon].
  destruct (lookup_lt_is_Some_2 words i ltac:(lia)) as [w0 Hw0].
  rewrite Hw0.
  destruct (IH (S i) (<[w0 := [unknown t0]]> data) ltac:(lia))
    as (data' & -> & Hlast & Hother).
  exists data'. split; [done|]. split.
  - intros [|k] w t Hw Ht Hlater.
    + rewrite Nat.add_0_r in Hw. cbn [lookup list_lookup] in Ht. simplify_eq.
      rewrite Hother; [by rewrite lookup_insert_eq|].
      intros k Hk Hk'. apply (Hlater (S k)); [lia|cbn [length]; lia|].
      by rewrite Nat.add_succ_r.
    + cbn [lookup list_lookup] in Ht. apply (Hlast k); [|done|].
      * by rewrite Nat.add_succ_r in Hw.
      * intros k' Hk' Hk'' Hw'. apply (Hlater (S k')); [lia|cbn [length]; lia|].
        by rewrite Nat.add_succ_r.
  - intros w Hnone. rewrite Hother.
    + rewrite lookup_insert_ne; [done|]. intros ->.
      apply (Hnone 0); [cbn [length]; lia|]. by rewrite Nat.add_0_r.
    + intros k Hk Hw. apply (Hnone (S k)); [cbn [length]; lia|].
      by rewrite Nat.add_succ_r.
Qed.

(** Past the end of the word list the loop raises. *)
Lemma fill_lexicon_raise words ts i data :
  i ≤ length words -> length words < i + length ts ->
  fill_lexicon words i ts data = Raise IndexError.
Proof.
  revert i data. induction ts as [|t0 ts IH]; intros i data Hi Hlen;
    cbn [length fill_lexicon] in *.
  { lia. }
  destruct (words !! i) as [w0|] eqn:Hw0; [|done].
  apply lookup_lt_Some in Hw0. apply IH; lia.
Qed.

Lemma NoDup_no_later words i j w :
  NoDup words -> words !! i = Some w -> i < j -> words !! j ≠ Some w.
Proof.
  intros Hnd Hi Hij Hj. pose proof (NoDup_lookup _ _ _ _ Hnd Hi Hj). lia.
Qed.

(** A word of the list has a last position in it. *)
Lemma last_position words w :
  w ∈ words ->
  exists k, words !! k = Some w /\ forall k', k < k' -> words !! k' ≠ Some w.
Proof.
  induction words as [|v words IH]; [by intros ?%elem_of_nil|]. intros Hw.
  destruct (decide (w ∈ words)) as [Hin|Hnot].
  - destruct (IH Hin) as (k & Hk & Hlater). exists (S k). split; [done|].
    intros [|k'] ?; [lia|]. apply Hlater. lia.
  - apply elem_of_cons in Hw as [->|?]; [|done]. exists 0. split; [done|].
    intros [|k'] ? Hk'; [lia|]. apply Hnot. by eapply list_elem_of_lookup_2.
Qed.

(** The lines for a list of distinct lemmas resolved position by
    position. *)
Lemma output_lines_aligned data lemmas ts :
  length ts = length lemmas ->
  (forall i w t, lemmas !! i = Some w -> ts !! i = Some t ->
                 data !! w = Some [unknown t]) ->
  output_lines data lemmas
  = zip_with (fun w t => w ++ py " - " ++ t) lemmas ts.
Proof.
  revert ts. induction lemmas as [|w lemmas IH]; intros [|t ts] Hlen Hdata;
    simplify_eq/=; [done|].
  unfold output_lines in *. cbn [flat_map].
  rewrite (Hdata 0 w t) by done. cbn [app]. f_equal.
  apply IH; [done|]. intros i w' t' Hw' Ht'. by apply (Hdata (S i)).
Qed.

(** The lines for any data: one for each lemma of the list that is a key
    with a list that is not empty, made of the first sense of the list. *)
Lemma output_lines_first data lemmas :
  Forall2 (fun out w =>
             exists first,
               data !! w ≫= head = Some first
               /\ out = w ++ py " - " ++ translation first)
    (output_lines data lemmas)
    (filter (fun w => is_Some (data !! w ≫= head)) lemmas).
Proof.
  unfold output_lines. induction lemmas as [|w lemmas IH]; [constructor|].
  cbn [flat_map].
  destruct (data !! w) as [[|first rest]|] eqn:Hw.
  - rewrite filter_cons_False; [done|]. rewrite Hw. by intros [? ?].
  - rewrite filter_cons_True by (rewrite Hw; by eexists).
    cbn [app]. constructor; [|done]. exists first. by rewrite Hw.
  - rewrite filter_cons_False; [done|]. rewrite Hw. by intros [? ?].
Qed.
End Batch.

(** * The per-word program *)

Section PerWordProgram.
Import HitApi.
Variable lower : pystr -> pystr.
Variable stopwords : list pystr.
Variable translate : pystr -> pystr -> answer.

Lemma process_NoDup text : NoDup (process lower stopwords text).
Proof. apply normalize_NoDup. Qed.

Lemma process_increasing text : Sorted str_lt (process lower stopwords text).
Proof. apply normalize_increasing. Qed.

(** The run with an answer for every word. *)
Lemma main_ok text :
  Forall (fun v => answers (translate v (py "fr"))) (process lower stopwords text) ->
  exists lexicon,
    build_lexicon translate (process lower stopwords text) [] = Ok lexicon
    /\ main lower stopwords translate text = Ok (map render lexicon)
    /\ forall w, w ∈ process lower stopwords text ->
         senses_of w lexicon = lines_of w (translate w (py "fr")).
Proof.
  intros Hall. eexists. split; [by apply build_lexicon_ok|]. split.
  - unfold main. by rewrite build_lexicon_ok.
  - intros w Hw. cbn [app]. apply senses_of_lexicon; [apply process_NoDup|done].
Qed.
End PerWordProgram.

Example voler_two_senses :
  HitApi.main lower_latin stopwords_sample translate_sample (py "Voler, voler!")
  = Ok [py "voler (VERB) - to fly"; py "voler (VERB) - to steal"].
Proof. vm_compute. reflexivity. Qed.

Example chat_souris_mangent :
  HitApi.main lower_latin stopwords_sample translate_sample
    (py "Le chat et la souris mangent.")
  = Ok [py "chat (NOUN) - cat"; py "mangent (?) - ???"; py "souris (?) - ???"].
Proof. vm_compute. reflexivity. Qed.

(** C4. In per-word mode, a word whose result carries a list of
    translations gets one line per translation, with the translation's part
    of speech and first target, all of them and in the order of the list;
    the run reaches its end when the backend answers for every word. *)
Theorem per_word_multi_sense (lower : pystr -> pystr) (stopwords : list pystr)
    (translate : pystr -> pystr -> HitApi.answer) (text w : pystr)
    (l : list HitApi.translation) :
  w ∈ HitApi.process lower stopwords text ->
  translate w (py "fr") = HitApi.ExtraData (HitApi.Senses l) ->
  Forall (fun v => HitApi.answers (translate v (py "fr")))
    (HitApi.process lower stopwords text) ->
  exists lexicon,
    HitApi.build_lexicon translate (HitApi.process lower stopwords text) []
    = Ok lexicon
    /\ HitApi.main lower stopwords translate text
       = Ok (map HitApi.render lexicon)
    /\ Forall2 (fun ln t =>
                  HitApi.Source ln = w
                  /\ HitApi.PartOfSpeech ln = HitApi.t_pos t
                  /\ head (HitApi.t_targets t) = Some (HitApi.Target ln))
         (HitApi.senses_of w lexicon) l.
Proof.
  intros Hw Hl Hall.
  destruct (main_ok lower stopwords translate text Hall) as (lexicon & Hb & Hm & Hs).
  exists lexicon. split; [done|]. split; [done|].
  rewrite (Hs w Hw), Hl. apply lines_of_Senses.
  rewrite Forall_forall in Hall. specialize (Hall w Hw). by rewrite Hl in Hall.
Qed.

Lemma per_word_multi_sense_witness :
  exists lexicon,
    HitApi.build_lexicon translate_sample
      (HitApi.process lower_latin stopwords_sample (py "Voler, le chat!")) []
    = Ok lexicon
    /\ HitApi.main lower_latin stopwords_sample translate_sample
         (py "Voler, le chat!")
       = Ok (map HitApi.render lexicon)
    /\ Forall2 (fun ln t =>
                  HitApi.Source ln = py "voler"
                  /\ HitApi.PartOfSpeech ln = HitApi.t_pos t
                  /\ head (HitApi.t_targets t) = Some (HitApi.Target ln))
         (HitApi.senses_of (py "voler") lexicon)
         [ {| HitApi.t_pos := py "VERB"; HitApi.t_targets := [py "to fly"] |};
           {| HitApi.t_pos := py "VERB"; HitApi.t_targets := [py "to steal"] |} ].
Proof.
  apply (per_word_multi_sense lower_latin stopwords_sample translate_sample
           (py "Voler, le chat!") (py "voler")).
  - apply (bool_decide_unpack _). vm_compute. exact I.
  - vm_compute. reflexivity.
  - assert (HitApi.process lower_latin stopwords_sample (py "Voler, le chat!")
            = [py "chat"; py "voler"]) as -> by (vm_compute; reflexivity).
    repeat constructor; vm_compute; congruence.
Defined.

(** C2, as the program has it. In per-word resolution a call that raises,
    or a result that lists a translation without a target, ends the whole
    run with the exception and nothing is printed.  A result whose
    [extra_data] has no list of translations, the key missing or its value
    [None], gives the word the single sentinel line; every word keeps the
    lines of its own answer and the run reaches its end, the backend
    answering for every word. *)
Theorem per_word_failure (lower : pystr -> pystr) (stopwords : list pystr)
    (translate : pystr -> pystr -> HitApi.answer) (text w : pystr) :
  w ∈ HitApi.process lower stopwords text ->
  (~ HitApi.answers (translate w (py "fr")) ->
   exists e, HitApi.main lower stopwords translate text = Raise e)
  /\ (translate w (py "fr") = HitApi.ExtraData HitApi.Absent
      \/ translate w (py "fr") = HitApi.ExtraData HitApi.Null ->
      Forall (fun v => HitApi.answers (translate v (py "fr")))
        (HitApi.process lower stopwords text) ->
      exists lexicon,
        HitApi.build_lexicon translate (HitApi.process lower stopwords text) []
        = Ok lexicon
        /\ HitApi.main lower stopwords translate text
           = Ok (map HitApi.render lexicon)
        /\ HitApi.senses_of w lexicon = [HitApi.sentinel w]
        /\ forall v, v ∈ HitApi.process lower stopwords text ->
             HitApi.senses_of v lexicon
             = HitApi.lines_of v (translate v (py "fr"))).
Proof.
  intros Hw. split.
  - intros Hraise.
    destruct (build_lexicon_raise translate
                (HitApi.process lower stopwords text) [] w Hw Hraise) as [e He].
    exists e. unfold HitApi.main. by rewrite He.
  - intros Hnone Hall.
    destruct (main_ok lower stopwords translate text Hall) as (lexicon & Hb & Hm & Hs).
    exists lexicon. repeat split; [done..| |done].
    rewrite (Hs w Hw). by destruct Hnone as [-> | ->].
Qed.

Lemma per_word_failure_witness :
  exists e,
    HitApi.main lower_latin stopwords_sample translate_failing
      (py "Le chat et la souris.")
    = Raise e.
Proof.
  apply (per_word_failure lower_latin stopwords_sample translate_failing
           (py "Le chat et la souris.") (py "souris")).
  - apply (bool_decide_unpack _). vm_compute. exact I.
  - vm_compute. intros [].
Defined.

(** The claim C2 fails: with a call that raises for [souris], the run ends
    with the exception; there is no lexicon in which [souris] has the
    sentinel line and [chat] its line. *)
Lemma per_word_failure_counterexample :
  let text := py "Le chat et la souris." in
  HitApi.process lower_latin stopwords_sample text = [py "chat"; py "souris"]
  /\ translate_failing (py "chat") (py "fr") = translate_sample (py "chat") (py "fr")
  /\ translate_failing (py "souris") (py "fr") = HitApi.Raises
  /\ HitApi.main lower_latin stopwords_sample translate_failing text
     = Raise BackendError
  /\ ~ exists lexicon,
         HitApi.build_lexicon translate_failing
           (HitApi.process lower_latin stopwords_sample text) [] = Ok lexicon
         /\ HitApi.senses_of (py "souris") lexicon
            = [HitApi.sentinel (py "souris")].
Proof.
  repeat split; try (vm_compute; reflexivity).
  intros (lexicon & Hb & _). vm_compute in Hb. discriminate.
Qed.

(** C1, as the programs have it. Per word: when the backend answers for
    every base form, a base form whose result has [extra_data] without a
    list of translations gets exactly the sentinel line, one whose list is
    not empty gets one line per translation, and one whose result has no
    [extra_data] is passed over and gets none.  In batch: when the response
    has an item for every base form, each one is a key of the lexicon with
    one sense. *)
Theorem sentinel_completeness :
  (forall (lower : pystr -> pystr) (stopwords : list pystr)
          (translate : pystr -> pystr -> HitApi.answer) (text : pystr),
      Forall (fun v => HitApi.answers (translate v (py "fr")))
        (HitApi.process lower stopwords text) ->
      exists lexicon,
        HitApi.build_lexicon translate (HitApi.process lower stopwords text) []
        = Ok lexicon
        /\ forall w, w ∈ HitApi.process lower stopwords text ->
             match translate w (py "fr") with
             | HitApi.ExtraData HitApi.Absent | HitApi.ExtraData HitApi.Null =>
                 HitApi.senses_of w lexicon = [HitApi.sentinel w]
             | HitApi.ExtraData (HitApi.Senses l) =>
                 l ≠ [] ->
                 HitApi.senses_of w lexicon ≠ []
                 /\ length (HitApi.senses_of w lexicon) = length l
             | HitApi.Plain => HitApi.senses_of w lexicon = []
             | HitApi.Raises => False
             end)
  /\ (forall translate_text (lemmas : list pystr) (target_lang : pystr)
             (ts : list pystr),
        translate_text lemmas target_lang LexikonV2.source_language = Ok ts ->
        length ts = length lemmas ->
        exists data,
          LexikonV2.translate_word_list translate_text lemmas target_lang = Ok data
          /\ forall w, w ∈ lemmas ->
               exists t, t ∈ ts
                 /\ data !! w
                    = Some [{| LexikonV2.pos := py "?"; LexikonV2.translation := t |}]).
Proof.
  split.
  - intros lower stopwords translate text Hall.
    destruct (main_ok lower stopwords translate text Hall) as (lexicon & Hb & _ & Hs).
    exists lexicon. split; [done|]. intros w Hw. rewrite (Hs w Hw).
    rewrite Forall_forall in Hall. specialize (Hall w Hw).
    destruct (translate w (py "fr")) as [| |[| |l]]; try done.
    intros Hl. pose proof (lines_of_Senses w l Hall) as Hlines.
    apply Forall2_length in Hlines. split; [|done].
    intros Hnil. rewrite Hnil in Hlines. by destruct l.
  - intros translate_text lemmas target_lang ts Hts Hlen.
    unfold LexikonV2.translate_word_list. rewrite Hts. cbn [bind].
    destruct (fill_lexicon_spec lemmas ts 0 ∅ ltac:(simpl; lia))
      as (data & Hfill & Hlast & _).
    exists data. split; [done|]. intros w Hw.
    destruct (last_position lemmas w Hw) as (k & Hk & Hlater).
    destruct (lookup_lt_is_Some_2 ts k) as [t Ht].
    { rewrite Hlen. by eapply lookup_lt_Some. }
    exists t. split; [by eapply list_elem_of_lookup_2|].
    apply (Hlast k); [done..|]. intros k' ? _. by apply Hlater.
Qed.

Lemma sentinel_completeness_witness :
  exists lexicon,
    HitApi.build_lexicon translate_sample
      (HitApi.process lower_latin stopwords_sample (py "La souris mangent")) []
    = Ok lexicon
    /\ HitApi.senses_of (py "souris") lexicon = [HitApi.sentinel (py "souris")].
Proof.
  destruct sentinel_completeness as [Hper_word _].
  destruct (Hper_word lower_latin stopwords_sample translate_sample
              (py "La souris mangent")) as (lexicon & Hb & Hs).
  - assert (HitApi.process lower_latin stopwords_sample (py "La souris mangent")
            = [py "mangent"; py "souris"]) as -> by (vm_compute; reflexivity).
    repeat constructor.
  - exists lexicon. split; [done|].
    apply (Hs (py "souris")).
    apply (bool_decide_unpack _). vm_compute. exact I.
Defined.

(** The claim C1 fails: a base form whose result has no [extra_data], or an
    empty list of translations, has no line in the lexicon, and in batch a
    base form past the end of a short response is no key of the lexicon. *)
Lemma sentinel_completeness_counterexample :
  let words := HitApi.process lower_latin stopwords_sample (py "Le chat") in
  py "chat" ∈ words
  /\ HitApi.build_lexicon translate_plain words [] = Ok []
  /\ HitApi.senses_of (py "chat") [] = []
  /\ HitApi.build_lexicon translate_empty words [] = Ok []
  /\ exists data,
       LexikonV2.translate_word_list (translate_text_const [py "cat"])
         [py "chat"; py "souris"] (py "en") = Ok data
       /\ data !! py "souris" = None.
Proof.
  repeat split; try (vm_compute; reflexivity).
  - apply (bool_decide_unpack _). vm_compute. exact I.
  - eexists. split; [vm_compute; reflexivity|]. vm_compute. reflexivity.
Qed.

(** * The batch program *)

Example batch_chat_souris :
  LexikonV2.translate_word_list (translate_text_const [py "cat"; py "mouse"])
    [py "chat"; py "souris"] (py "en")
  = Ok (<[py "souris" := [{| LexikonV2.pos := py "?";
                             LexikonV2.translation := py "mouse" |}]]>
        (<[py "chat" := [{| LexikonV2.pos := py "?";
                            LexikonV2.translation := py "cat" |}]]> ∅)).
Proof. vm_compute. reflexivity. Qed.

Example batch_main_chat_souris :
  LexikonV2.main lower_latin nlp_sample
    (translate_text_const [py "cat"; py "mouse"]) (py "Le chat et la souris")
  = Ok (Some (py "chat - cat" ++ [NEWLINE] ++ py "souris - mouse")).
Proof. vm_compute. reflexivity. Qed.

(** C3. In batch mode, for a request word list, which is the list without
    duplicates that the deduplication returns, and a response of the same
    length aligned with it, the resolver returns the mapping whose keys are
    the words of the list and that sends [words[i]] to the one sense
    [("?", ts[i])] for every position [i]. *)
Theorem batch_alignment
    (translate_text : list pystr -> pystr -> pystr -> res (list pystr))
    (words : list pystr) (target_lang : pystr) (ts : list pystr) :
  NoDup words ->
  translate_text words target_lang LexikonV2.source_language = Ok ts ->
  length ts = length words ->
  exists data,
    LexikonV2.translate_word_list translate_text words target_lang = Ok data
    /\ (forall w, is_Some (data !! w) <-> w ∈ words)
    /\ (forall i w t,
          words !! i = Some w -> ts !! i = Some t ->
          data !! w
          = Some [{| LexikonV2.pos := py "?"; LexikonV2.translation := t |}]).
Proof.
  intros Hnd Hts Hlen.
  unfold LexikonV2.translate_word_list. rewrite Hts. cbn [bind].
  destruct (fill_lexicon_spec words ts 0 ∅ ltac:(simpl; lia))
    as (data & Hfill & Hlast & Hother).
  cbn [Nat.add] in Hlast, Hother.
  exists data. split; [done|].
  assert (forall i w t,
            words !! i = Some w -> ts !! i = Some t ->
            data !! w
            = Some [{| LexikonV2.pos := py "?"; LexikonV2.translation := t |}])
    as Haligned.
  { intros i w t Hw Ht. apply (Hlast i); [done..|].
    intros j Hij _. by eapply NoDup_no_later. }
  split; [|done].
  intros w. split.
  - intros Hsome. destruct (decide (w ∈ words)) as [|Hnot]; [done|].
    rewrite Hother in Hsome; [by destruct Hsome|].
    intros k _ Hk. apply Hnot. by eapply list_elem_of_lookup_2.
  - intros Hw. apply list_elem_of_lookup in Hw as [k Hk].
    destruct (lookup_lt_is_Some_2 ts k) as [t Ht].
    { rewrite Hlen. by eapply lookup_lt_Some. }
    rewrite (Haligned k w t); [by eexists|done..].
Qed.

Lemma batch_alignment_witness :
  exists data,
    LexikonV2.translate_word_list (translate_text_const [py "cat"; py "mouse"])
      [py "chat"; py "souris"] (py "en") = Ok data
    /\ data !! py "chat"
       = Some [{| LexikonV2.pos := py "?"; LexikonV2.translation := py "cat" |}]
    /\ data !! py "souris"
       = Some [{| LexikonV2.pos := py "?"; LexikonV2.translation := py "mouse" |}].
Proof.
  destruct (batch_alignment (translate_text_const [py "cat"; py "mouse"])
              [py "chat"; py "souris"] (py "en") [py "cat"; py "mouse"])
    as (data & Hdata & _ & Haligned).
  - apply (bool_decide_unpack _). vm_compute. exact I.
  - reflexivity.
  - reflexivity.
  - exists data. split; [done|]. split.
    + by apply (Haligned 0%nat).
    + by apply (Haligned 1%nat).
Defined.

(** * Output *)

Section Output.
Import HitApi.

Lemma render_lines_of w a :
  map render (lines_of w a)
  = map (fun ln => w ++ py " (" ++ PartOfSpeech ln ++ py ") - " ++ Target ln)
      (lines_of w a).
Proof.
  apply map_ext_in. intros ln Hin%list_elem_of_In.
  unfold render. by rewrite (lines_of_Source _ _ _ Hin).
Qed.

Lemma map_flat_map {A B C} (f : B -> C) (g : A -> list B) (l : list A) :
  map f (flat_map g l) = flat_map (fun x => map f (g x)) l.
Proof.
  induction l as [|x l IH]; [done|]. simpl. by rewrite map_app, IH.
Qed.
End Output.

(** * Base forms *)

Section TagFilter.
Import LexikonV2.
Local Open Scope nat_scope.
Variable lower : pystr -> pystr.
Implicit Types (doc : list token) (m : gmap pystr pystr) (w : pystr).

(** A key of [unique_lemmas] was there before the loop or is the lemma of
    a token that went through both tests. *)
Lemma collect_lemmas_inv doc m w :
  is_Some (collect_lemmas lower doc m !! w) ->
  is_Some (m !! w)
  \/ exists token,
       (token ∈ doc)
       /\ is_alpha token = true /\ is_stop token = false
       /\ (pos_ token ∉ undesirable_pos)
       /\ w = strip (lower (lemma_ token))
       /\ (1 < length w \/ (length w = 1 /\ w ∉ one_letter_words)).
Proof.
  revert m. induction doc as [|token doc IH]; intros m; cbn [collect_lemmas].
  { by left. }
  assert (forall m', is_Some (collect_lemmas lower doc m' !! w) ->
                     is_Some (m' !! w)
                     \/ exists token0,
                          (token0 ∈ token :: doc)
                          /\ is_alpha token0 = true /\ is_stop token0 = false
                          /\ (pos_ token0 ∉ undesirable_pos)
                          /\ w = strip (lower (lemma_ token0))
                          /\ (1 < length w \/ (length w = 1 /\ w ∉ one_letter_words)))
    as IH'.
  { intros m' [?|(token0 & ? & ?)]%IH; [by left|].
    right. exists token0. split; [by right|done]. }
  destruct (is_alpha token && negb (is_stop token)
            && bool_decide (pos_ token ∉ undesirable_pos)) eqn:Htest; [|by apply IH'].
  destruct ((1 <? length (strip (lower (lemma_ token))))
            || ((length (strip (lower (lemma_ token))) =? 1)
                && bool_decide (strip (lower (lemma_ token)) ∉ one_letter_words)))
    eqn:Hlen; [|by apply IH'].
  destruct (m !! strip (lower (lemma_ token))) eqn:Hm; [by apply IH'|].
  intros [Hw|Hw]%IH'; [|by right].
  destruct (decide (strip (lower (lemma_ token)) = w)) as [Heq|Hne].
  - right. exists token. split; [by left|].
    apply andb_true_iff in Htest as [[Ha Hs]%andb_true_iff Hp].
    apply negb_true_iff in Hs. apply bool_decide_eq_true in Hp.
    repeat split; [done..|].
    rewrite Heq in Hlen. apply orb_true_iff in Hlen as [Hl|Hl].
    + left. by apply Nat.ltb_lt.
    + right. apply andb_true_iff in Hl as [Hl Hn].
      apply Nat.eqb_eq in Hl. by apply bool_decide_eq_true in Hn.
  - left. by rewrite lookup_insert_ne in Hw.
Qed.
End TagFilter.

Example point_b :
  LexikonV2.extract_unique_lemmas lower_latin nlp_sample (py "le point B y est")
  = [py "b"; py "est"; py "point"].
Proof. vm_compute. reflexivity. Qed.

(** C9, as the programs have it. Every base form that reaches the resolver
    is non-empty.  With the stop-word list it is made of letters of the
    source alphabet only, of any length.  With the tagger it is the
    lower-cased, stripped lemma of a token that is alphabetic, no stop word
    and of no excluded part of speech, and when it is one letter long it is
    none of [y], [a], [à], [ô], [ç]: these five are dropped and every other
    single letter is kept. *)
Theorem base_form_invariant :
  (forall (lower : pystr -> pystr) (stopwords : list pystr) (text w : pystr),
      w ∈ HitApi.process lower stopwords text ->
      w ≠ [] /\ Forall (fun c => HitApi.is_letter c = true) w)
  /\ (forall (lower : pystr -> pystr) nlp (text w : pystr),
        w ∈ LexikonV2.extract_unique_lemmas lower nlp text ->
        w ≠ []
        /\ (length w = 1%nat -> w ∉ LexikonV2.one_letter_words)
        /\ exists token,
             (token ∈ nlp text)
             /\ LexikonV2.is_alpha token = true
             /\ LexikonV2.is_stop token = false
             /\ (LexikonV2.pos_ token ∉ LexikonV2.undesirable_pos)
             /\ w = strip (lower (LexikonV2.lemma_ token))).
Proof.
  split.
  - intros lower stopwords text w Hw. by apply process_letter_words in Hw.
  - intros lower nlp text w Hw.
    apply elem_of_extract_unique_lemmas, collect_lemmas_inv in Hw
      as [[? Hw]|(token & Hin & Ha & Hs & Hp & Hlemma & Hlen)].
    { by rewrite lookup_empty in Hw. }
    split; [|split].
    + intros ->. simpl in Hlen. destruct Hlen as [?|[? _]]; lia.
    + intros H1. destruct Hlen as [?|[_ ?]]; [lia|done].
    + by exists token.
Qed.

Lemma base_form_invariant_witness :
  py "chat" ≠ [] /\ Forall (fun c => HitApi.is_letter c = true) (py "chat").
Proof.
  destruct base_form_invariant as [Hstop _].
  apply (Hstop lower_latin stopwords_sample (py "Le chat!")).
  apply (bool_decide_unpack _). vm_compute. exact I.
Defined.

(** The claim C9 fails: the one-letter lemma [b] reaches the resolver in
    both programs, and it is not in the list of one-letter words; of that
    list, [y] is the one that is dropped. *)
Lemma base_form_invariant_counterexample :
  let lemmas :=
    LexikonV2.extract_unique_lemmas lower_latin nlp_sample (py "le point B y est") in
  (py "b" ∈ lemmas)
  /\ length (py "b") = 1%nat
  /\ (py "b" ∉ LexikonV2.one_letter_words)
  /\ (py "y" ∈ LexikonV2.one_letter_words)
  /\ (py "y" ∉ lemmas)
  /\ py "b" ∈ HitApi.process lower_latin stopwords_sample (py "le point B y est").
Proof.
  repeat split; try (apply (bool_decide_unpack _); vm_compute; exact I).
Qed.

(** * More on the stages of cleaning *)

Section Stages.
Import HitApi.
Implicit Types (c : char) (w s text : pystr) (ws : list pystr).

Lemma concat_cons_word c ws : concat (cons_word c ws) = c :: concat ws.
Proof. by destruct ws. Qed.

Lemma normalize_whitespace_space_end c :
  is_space c = true -> normalize_whitespace [c] = [SPACE].
Proof. intros Hc. cbn. by rewrite Hc. Qed.

Lemma normalize_whitespace_space_cons c d text :
  is_space c = true ->
  normalize_whitespace (c :: d :: text)
  = if is_space d then normalize_whitespace (d :: text)
    else SPACE :: normalize_whitespace (d :: text).
Proof.
  intros Hc.
  change (normalize_whitespace (c :: d :: text))
    with (if is_space c
          then (if is_space d then normalize_whitespace (d :: text)
                else SPACE :: normalize_whitespace (d :: text))
          else c :: normalize_whitespace (d :: text)).
  by rewrite Hc.
Qed.

Lemma normalize_whitespace_cons_letter c text :
  is_space c = false ->
  normalize_whitespace (c :: text) = c :: normalize_whitespace text.
Proof.
  intros Hc.
  change (normalize_whitespace (c :: text))
    with (if is_space c
          then match text with
               | [] => [SPACE]
               | d :: _ => if is_space d then normalize_whitespace text
                           else SPACE :: normalize_whitespace text
               end
          else c :: normalize_whitespace text).
  by rewrite Hc.
Qed.

Lemma normalize_whitespace_head_space c text :
  is_space c = true -> exists tl, normalize_whitespace (c :: text) = SPACE :: tl.
Proof.
  revert c. induction text as [|d text IH]; intros c Hc.
  - rewrite normalize_whitespace_space_end by done. by eexists.
  - rewrite normalize_whitespace_space_cons by done.
    destruct (is_space d) eqn:Hd; [by apply IH|by eexists].
Qed.

Lemma is_space_SPACE : is_space SPACE = true.
Proof. done. Qed.
End Stages.

(** X1. [remove_punctuation] puts one space for every character outside the
    class, at its place: at every position the result has the character of
    the text when it is of the class and a space otherwise, so the text
    keeps its length, every character of the result is of the class, the
    letters of the class stay as they are and in their order, and a second
    pass changes nothing. *)
Theorem remove_punctuation_shape (text : pystr) :
  length (HitApi.remove_punctuation text) = length text
  /\ (forall (i : nat) (c : char),
        text !! i = Some c ->
        HitApi.remove_punctuation text !! i
        = Some (if HitApi.in_class c then c else SPACE))
  /\ Forall (fun c => HitApi.is_letter c = true \/ c = SPACE)
       (HitApi.remove_punctuation text)
  /\ filter (fun c => HitApi.is_letter c = true) (HitApi.remove_punctuation text)
     = filter (fun c => HitApi.is_letter c = true) text
  /\ HitApi.remove_punctuation (HitApi.remove_punctuation text)
     = HitApi.remove_punctuation text.
Proof.
  split; [|split; [|split; [|split]]].
  - unfold HitApi.remove_punctuation. apply length_map.
  - unfold HitApi.remove_punctuation.
    induction text as [|d text IH]; intros [|i] c Hc;
      cbn [lookup list_lookup] in Hc; simplify_eq; cbn [map lookup list_lookup].
    + done.
    + by apply IH.
  - eapply Forall_impl; [apply remove_punctuation_class|]. apply in_class_inv.
  - unfold HitApi.remove_punctuation.
    induction text as [|c text IH]; [done|]. cbn [map].
    destruct (HitApi.in_class c) eqn:Hc.
    + destruct (HitApi.is_letter c) eqn:Hl.
      * rewrite !filter_cons_True by done. by rewrite IH.
      * rewrite !filter_cons_False by congruence. done.
    + assert (HitApi.is_letter c = false) as Hl.
      { destruct (HitApi.is_letter c) eqn:Hl; [|done].
        by rewrite (is_letter_in_class _ Hl) in Hc. }
      rewrite filter_cons_False by (by vm_compute).
      rewrite filter_cons_False by congruence. done.
  - apply remove_punctuation_fixed, remove_punctuation_class.
Qed.

(** X2. [split] loses nothing but whitespace and makes no empty word: the
    words put end to end are the text without its whitespace, and every
    word is non-empty and free of whitespace. *)
Theorem split_keeps_letters (text : pystr) :
  concat (split text) = filter (fun c => is_space c = false) text
  /\ Forall is_word (split text).
Proof.
  split; [|apply split_words].
  induction text as [|c rest IH]; [done|]. cbn [split].
  destruct (is_space c) eqn:Hc.
  - rewrite filter_cons_False by congruence. done.
  - rewrite filter_cons_True by done.
    destruct rest as [|d rest']; [done|].
    destruct (is_space d) eqn:Hd.
    + cbn [concat app]. by rewrite IH.
    + by rewrite concat_cons_word, IH.
Qed.

(** X3. Joining words with single spaces and splitting again gives the
    words back, for words that are non-empty and free of whitespace. *)
Theorem split_join_round_trip (ws : list pystr) :
  Forall is_word ws -> split (join [SPACE] ws) = ws.
Proof. apply split_join. Qed.

Lemma split_join_round_trip_witness :
  split (join [SPACE] [py "chat"; py "souris"]) = [py "chat"; py "souris"].
Proof.
  apply (split_join_round_trip [py "chat"; py "souris"]).
  repeat constructor; done.
Defined.

(** X4. [normalize_whitespace] does not change the words of a text. *)
Theorem normalize_whitespace_same_words (text : pystr) :
  split (HitApi.normalize_whitespace text) = split text.
Proof.
  induction text as [|c rest IH]; [done|].
  destruct (is_space c) eqn:Hc.
  - rewrite (split_cons_space c rest Hc).
    destruct rest as [|d rest'].
    { by rewrite normalize_whitespace_space_end. }
    rewrite normalize_whitespace_space_cons by done.
    destruct (is_space d) eqn:Hd; [done|].
    by rewrite split_cons_space.
  - rewrite normalize_whitespace_cons_letter by done.
    destruct rest as [|d rest']; [done|].
    destruct (is_space d) eqn:Hd.
    + destruct (normalize_whitespace_head_space d rest' Hd) as [tl Htl].
      rewrite Htl in *. rewrite !split_cons_letter by done.
      by rewrite is_space_SPACE, Hd, IH.
    + rewrite normalize_whitespace_cons_letter in * by done.
      rewrite !split_cons_letter by done. by rewrite Hd, IH.
Qed.

(** X5. In the result of [normalize_whitespace] every whitespace character
    is a space and no two spaces stand in a row; a second pass changes
    nothing. *)
Theorem normalize_whitespace_single_spaces (text : pystr) :
  Forall (fun c => is_space c = true -> c = SPACE)
    (HitApi.normalize_whitespace text)
  /\ ~ doubled_space (HitApi.normalize_whitespace text)
  /\ HitApi.normalize_whitespace (HitApi.normalize_whitespace text)
     = HitApi.normalize_whitespace text.
Proof.
  split; [|split].
  - induction text as [|c rest IH]; [constructor|].
    destruct (is_space c) eqn:Hc.
    + destruct rest as [|d rest'].
      { rewrite normalize_whitespace_space_end by done. by repeat constructor. }
      rewrite normalize_whitespace_space_cons by done.
      destruct (is_space d); [done|]. by constructor.
    + rewrite normalize_whitespace_cons_letter by done.
      constructor; [congruence|done].
  - induction text as [|c rest IH]; [apply doubled_space_nil|].
    destruct (is_space c) eqn:Hc.
    + destruct rest as [|d rest'].
      * rewrite normalize_whitespace_space_end by done.
        intros [[_ ?]|?%doubled_space_nil]%doubled_space_cons; done.
      * rewrite normalize_whitespace_space_cons by done.
        destruct (is_space d) eqn:Hd; [done|].
        intros [[_ Hhd]|?]%doubled_space_cons; [|done].
        rewrite normalize_whitespace_cons_letter in Hhd by done.
        cbn [head] in Hhd. injection Hhd as ->. by rewrite is_space_SPACE in Hd.
    + rewrite normalize_whitespace_cons_letter by done.
      intros [[-> _]|?]%doubled_space_cons; [|done].
      by rewrite is_space_SPACE in Hc.
  - induction text as [|c rest IH]; [done|].
    destruct (is_space c) eqn:Hc.
    + destruct rest as [|d rest'].
      { rewrite normalize_whitespace_space_end by done.
        by rewrite normalize_whitespace_space_end. }
      rewrite normalize_whitespace_space_cons by done.
      destruct (is_space d) eqn:Hd; [done|].
      rewrite (normalize_whitespace_cons_letter d rest') in * by done.
      rewrite normalize_whitespace_space_cons by done. rewrite Hd.
      by rewrite IH.
    + rewrite !normalize_whitespace_cons_letter by done. by rewrite IH.
Qed.

(** X6. [normalize_whitespace] does not trim: whitespace at the start of the
    text leaves one space at the start of the result, and whitespace at the
    end one space at the end. *)
Theorem normalize_whitespace_keeps_ends (text : pystr) (c : char) :
  is_space c = true ->
  (head text = Some c -> head (HitApi.normalize_whitespace text) = Some SPACE)
  /\ (last text = Some c -> last (HitApi.normalize_whitespace text) = Some SPACE).
Proof.
  intros Hc. split.
  - destruct text as [|d text]; [done|]. intros [= ->].
    by destruct (normalize_whitespace_head_space c text Hc) as [tl ->].
  - induction text as [|d rest IH]; [done|].
    destruct rest as [|e rest'].
    + intros [= ->]. by rewrite normalize_whitespace_space_end.
    + rewrite last_cons_cons. intros Hl. specialize (IH Hl).
      destruct (HitApi.normalize_whitespace (e :: rest')) as [|x tl] eqn:E; [done|].
      destruct (is_space d) eqn:Hd.
      * rewrite normalize_whitespace_space_cons by done.
        destruct (is_space e); rewrite E; [done|]. by rewrite last_cons_cons.
      * rewrite normalize_whitespace_cons_letter by done.
        rewrite E. by rewrite last_cons_cons.
Qed.

Lemma normalize_whitespace_keeps_ends_witness :
  head (HitApi.normalize_whitespace (py "  le chat")) = Some SPACE.
Proof.
  apply (normalize_whitespace_keeps_ends (py "  le chat") SPACE); done.
Defined.

Section StagesProgram.
Import HitApi.
Variable lower : pystr -> pystr.
Variable stopwords : list pystr.
Implicit Types (c : char) (w s text : pystr) (ws : list pystr).

Lemma kept_words_are_words text :
  Forall is_word (filter (fun word => word ∉ stopwords) (split text)).
Proof.
  pose proof (split_words text) as Hws. rewrite Forall_forall in *.
  intros w [_ Hin]%list_elem_of_filter. auto.
Qed.

Lemma split_remove_stop_words text :
  split (remove_stop_words stopwords text)
  = filter (fun word => word ∉ stopwords) (split text).
Proof. unfold remove_stop_words. apply split_join, kept_words_are_words. Qed.

(** [clean], with the words it keeps named. *)
Lemma clean_kept_words text :
  clean lower stopwords text
  = join [SPACE] (filter (fun word => word ∉ stopwords)
                    (split (remove_punctuation (lower text)))).
Proof.
  unfold clean, remove_stop_words.
  apply normalize_whitespace_join, kept_words_are_words.
Qed.

Lemma split_clean_kept_words text :
  split (clean lower stopwords text)
  = filter (fun word => word ∉ stopwords)
      (split (remove_punctuation (lower text))).
Proof. rewrite clean_kept_words. apply split_join, kept_words_are_words. Qed.

Lemma normalize_nil_inv ws : normalize ws = [] -> ws = [].
Proof.
  intros Hnil. destruct ws as [|w ws]; [done|].
  assert (w ∈ normalize (w :: ws)) as Hin by (apply elem_of_normalize; by left).
  rewrite Hnil in Hin. by apply elem_of_nil in Hin.
Qed.
End StagesProgram.

(** X7. [remove_stop_words] keeps the words that are not stop words, in
    their order and with their repetitions, and no others; applied twice it
    gives the same as once. *)
Theorem remove_stop_words_words (stopwords : list pystr) (text : pystr) :
  split (HitApi.remove_stop_words stopwords text)
  = filter (fun word => word ∉ stopwords) (split text)
  /\ HitApi.remove_stop_words stopwords (HitApi.remove_stop_words stopwords text)
     = HitApi.remove_stop_words stopwords text.
Proof.
  split; [apply split_remove_stop_words|].
  unfold HitApi.remove_stop_words at 1. rewrite split_remove_stop_words.
  unfold HitApi.remove_stop_words. f_equal. apply filter_all_kept.
  apply Forall_forall. by intros w [? _]%list_elem_of_filter.
Qed.

(** X8. The base forms that [process] returns are exactly the words of the
    lower-cased text, split at every character outside the class, that are
    not stop words; so no stop word reaches the resolver. *)
Theorem process_base_forms (lower : pystr -> pystr) (stopwords : list pystr)
    (text w : pystr) :
  w ∈ HitApi.process lower stopwords text
  <-> w ∈ split (HitApi.remove_punctuation (lower text)) /\ w ∉ stopwords.
Proof.
  unfold HitApi.process, HitApi.to_unique_list, HitApi.to_list.
  rewrite elem_of_normalize, split_clean_kept_words, list_elem_of_filter. tauto.
Qed.

(** X9. [clean] returns the empty string exactly when every word of the
    text is a stop word (or there is none), and exactly then [process]
    returns no base form. *)
Theorem clean_empty (lower : pystr -> pystr) (stopwords : list pystr)
    (text : pystr) :
  (HitApi.clean lower stopwords text = []
   <-> Forall (fun word => word ∈ stopwords)
         (split (HitApi.remove_punctuation (lower text))))
  /\ (HitApi.process lower stopwords text = []
      <-> HitApi.clean lower stopwords text = []).
Proof.
  assert (HitApi.clean lower stopwords text = []
          <-> filter (fun word => word ∉ stopwords)
                (split (HitApi.remove_punctuation (lower text))) = []) as Hkept.
  { rewrite clean_kept_words. split.
    - apply join_nil_inv, kept_words_are_words.
    - by intros ->. }
  split.
  - rewrite Hkept. rewrite Forall_forall. split.
    + intros Hnil w Hw. destruct (decide (w ∈ stopwords)) as [|Hnot]; [done|].
      assert (w ∈ filter (fun word => word ∉ stopwords)
                (split (HitApi.remove_punctuation (lower text)))) as Hin
        by by apply list_elem_of_filter.
      rewrite Hnil in Hin. by apply elem_of_nil in Hin.
    + intros Hall. apply elem_of_nil_inv. intros w [Hnot Hw]%list_elem_of_filter.
      by apply Hnot, Hall.
  - unfold HitApi.process, HitApi.to_unique_list, HitApi.to_list. split.
    + intros Hnil%normalize_nil_inv. rewrite split_clean_kept_words in Hnil.
      by apply Hkept.
    + by intros ->.
Qed.

(** * More on deduplication *)

(** X10. [normalize] depends on the set of the words only, not on their
    order or their repetitions, and returns every word of the list and no
    other. *)
Theorem normalize_set_only (S S' : list pystr) :
  (forall w, w ∈ HitApi.normalize S <-> w ∈ S)
  /\ ((forall w, w ∈ S <-> w ∈ S') -> HitApi.normalize S = HitApi.normalize S').
Proof.
  split; [intros w; apply elem_of_normalize|].
  intros Hsame. unfold HitApi.normalize. f_equal. f_equal.
  apply set_eq. intros w. by rewrite !elem_of_list_to_set.
Qed.

Lemma normalize_set_only_witness :
  HitApi.normalize [py "souris"; py "chat"; py "souris"]
  = HitApi.normalize [py "chat"; py "souris"].
Proof.
  destruct (normalize_set_only [py "souris"; py "chat"; py "souris"]
              [py "chat"; py "souris"]) as [_ Hsame].
  apply Hsame. intros w. rewrite !elem_of_cons, !elem_of_nil. tauto.
Defined.

(** X11. [normalize] never returns more words than it is given, and returns
    as many exactly when the list has no duplicates. *)
Theorem normalize_length (S : list pystr) :
  (length (HitApi.normalize S) <= length S)%nat
  /\ (length (HitApi.normalize S) = length S <-> NoDup S).
Proof.
  assert (HitApi.normalize S ⊆+ S) as Hsub.
  { apply NoDup_submseteq; [apply normalize_NoDup|].
    intros w. by rewrite elem_of_normalize. }
  split; [by apply submseteq_length|]. split.
  - intros Hlen. apply submseteq_length_Permutation in Hsub; [|lia].
    rewrite <-Hsub. apply normalize_NoDup.
  - intros Hnd. apply Permutation_length, NoDup_Permutation;
      [apply normalize_NoDup|done|]. intros w. apply elem_of_normalize.
Qed.

(** * More on per-word resolution *)

Section PerWordMore.
Import HitApi.
Variable translate : pystr -> pystr -> answer.
Implicit Types (w v word : pystr) (ws words : list pystr)
  (lexicon : list line).

Lemma resolve_word_Ok_inv word lexicon lexicon' :
  resolve_word translate word lexicon = Ok lexicon' ->
  answers (translate word (py "fr")).
Proof.
  unfold resolve_word, query_one_word.
  destruct (translate word (py "fr")) as [| |[| |l]]; simpl; try done.
  destruct (append_translations_spec word l lexicon) as [[? _]|[_ ->]]; done.
Qed.

Lemma build_lexicon_Ok_inv words lexicon lexicon' :
  build_lexicon translate words lexicon = Ok lexicon' ->
  Forall (fun w => answers (translate w (py "fr"))) words.
Proof.
  revert lexicon. induction words as [|w words IH]; intros lexicon; [constructor|].
  cbn [build_lexicon].
  destruct (resolve_word translate w lexicon) as [lexicon1|e] eqn:Hw; [|done].
  cbn [bind]. intros Hrest. constructor; [by eapply resolve_word_Ok_inv|by eapply IH].
Qed.

Lemma resolve_word_from_nil word lexicon :
  resolve_word translate word lexicon
  = let! new := resolve_word translate word [] in Ok (lexicon ++ new).
Proof.
  unfold resolve_word, query_one_word.
  destruct (translate word (py "fr")) as [| |[| |l]]; cbn [bind]; try done.
  - by rewrite app_nil_r.
  - destruct (append_translations_spec word l lexicon) as [[? ->]|[? ->]];
      destruct (append_translations_spec word l []) as [[? ->]|[? ->]];
      cbn [bind app]; done.
Qed.

Lemma build_lexicon_from_nil words lexicon :
  build_lexicon translate words lexicon
  = let! new := build_lexicon translate words [] in Ok (lexicon ++ new).
Proof.
  revert lexicon. induction words as [|w words IH]; intros lexicon.
  { cbn. by rewrite app_nil_r. }
  cbn [build_lexicon]. rewrite resolve_word_from_nil.
  destruct (resolve_word translate w []) as [new|e]; cbn [bind]; [|done].
  rewrite (IH (lexicon ++ new)), (IH new).
  destruct (build_lexicon translate words []) as [new'|e]; cbn [bind]; [|done].
  by rewrite app_assoc.
Qed.

Lemma Source_lexicon_sorted words :
  Sorted str_le words ->
  Sorted str_le
    (map Source (flat_map (fun w => lines_of w (translate w (py "fr"))) words)).
Proof.
  intros Hs. apply Sorted_StronglySorted in Hs; [|apply _].
  apply StronglySorted_Sorted.
  induction Hs as [|w words _ IH Hall]; [constructor|].
  cbn [flat_map]. rewrite map_app. apply StronglySorted_app_2; [| |done].
  - intros s1 s2 (ln1 & -> & Hin1)%list_elem_of_fmap (ln2 & -> & Hin2)%list_elem_of_fmap.
    apply lines_of_Source in Hin1 as ->.
    apply list_elem_of_In, in_flat_map in Hin2 as (v & Hv%list_elem_of_In & Hin2%list_elem_of_In).
    apply lines_of_Source in Hin2 as ->.
    rewrite Forall_forall in Hall. by apply Hall.
  - pose proof (lines_of_Source w (translate w (py "fr"))) as Hsrc.
    induction (lines_of w (translate w (py "fr"))) as [|ln lns IHl]; [constructor|].
    cbn [map]. constructor.
    + apply IHl. intros ? ?. apply Hsrc. by right.
    + apply Forall_forall. intros s (ln' & -> & Hin)%list_elem_of_fmap.
      rewrite (Hsrc ln) by by left. rewrite (Hsrc ln') by by right. done.
Qed.
End PerWordMore.

(** X12. The loop over the words reaches its end exactly when the backend
    answers for every word: no call raises and every translation listed has
    a first target. *)
Theorem build_lexicon_completes (translate : pystr -> pystr -> HitApi.answer)
    (words : list pystr) (lexicon : list HitApi.line) :
  (exists lexicon', HitApi.build_lexicon translate words lexicon = Ok lexicon')
  <-> Forall (fun w => HitApi.answers (translate w (py "fr"))) words.
Proof.
  split.
  - intros [lexicon' Hb]. by eapply build_lexicon_Ok_inv.
  - intros Hall. eexists. by apply build_lexicon_ok.
Qed.

(** X13. The loop only appends: run on a lexicon that already has lines, it
    does what it does on the empty one, the exception included, and puts
    the new lines after those that were there. *)
Theorem build_lexicon_appends (translate : pystr -> pystr -> HitApi.answer)
    (words : list pystr) (lexicon : list HitApi.line) :
  HitApi.build_lexicon translate words lexicon
  = let! new := HitApi.build_lexicon translate words [] in Ok (lexicon ++ new).
Proof. apply build_lexicon_from_nil. Qed.

(** X14. In a lexicon that the program builds, the source of every line is
    a base form of the text, and the sources stand in sorted order, so that
    the lines of one base form are next to each other. *)
Theorem lexicon_sources (lower : pystr -> pystr) (stopwords : list pystr)
    (translate : pystr -> pystr -> HitApi.answer) (text : pystr)
    (lexicon : list HitApi.line) :
  HitApi.build_lexicon translate (HitApi.process lower stopwords text) []
  = Ok lexicon ->
  Forall (fun ln => HitApi.Source ln ∈ HitApi.process lower stopwords text) lexicon
  /\ Sorted str_le (map HitApi.Source lexicon).
Proof.
  intros Hb. pose proof (build_lexicon_Ok_inv _ _ _ _ Hb) as Hall.
  rewrite build_lexicon_ok in Hb by done. injection Hb as <-. cbn [app]. split.
  - apply Forall_forall. intros ln Hin.
    apply list_elem_of_In, in_flat_map in Hin as (v & Hv%list_elem_of_In & Hin%list_elem_of_In).
    by apply lines_of_Source in Hin as ->.
  - apply Source_lexicon_sorted, Sorted_lt_le, normalize_increasing.
Qed.

Lemma lexicon_sources_witness :
  Forall (fun ln => HitApi.Source ln
                    ∈ HitApi.process lower_latin stopwords_sample (py "Voler, le chat!"))
    [HitApi.single_translation (py "chat") (py "NOUN") (py "cat");
     HitApi.single_translation (py "voler") (py "VERB") (py "to fly");
     HitApi.single_translation (py "voler") (py "VERB") (py "to steal")]
  /\ Sorted str_le [py "chat"; py "voler"; py "voler"].
Proof.
  apply (lexicon_sources lower_latin stopwords_sample translate_sample
           (py "Voler, le chat!")).
  vm_compute. reflexivity.
Defined.

(** X15. When every word of the text is a stop word, or the text has no
    word, the program prints nothing and the backend is never asked: the
    run ends well whatever the backend would do. *)
Theorem main_without_words (lower : pystr -> pystr) (stopwords : list pystr)
    (translate : pystr -> pystr -> HitApi.answer) (text : pystr) :
  Forall (fun word => word ∈ stopwords)
    (split (HitApi.remove_punctuation (lower text))) ->
  HitApi.main lower stopwords translate text = Ok [].
Proof.
  intros Hall.
  assert (HitApi.process lower stopwords text = []) as Hnil.
  { unfold HitApi.process, HitApi.to_unique_list, HitApi.to_list.
    rewrite split_clean_kept_words.
    assert (filter (fun word => word ∉ stopwords)
              (split (HitApi.remove_punctuation (lower text))) = []) as ->; [|done].
    apply elem_of_nil_inv. intros w [Hnot Hw]%list_elem_of_filter.
    rewrite Forall_forall in Hall. by apply Hnot, Hall. }
  unfold HitApi.main. by rewrite Hnil.
Qed.

Lemma main_without_words_witness :
  HitApi.main lower_latin stopwords_sample translate_failing (py "Le, la; les 19!")
  = Ok [].
Proof.
  apply (main_without_words lower_latin stopwords_sample translate_failing
           (py "Le, la; les 19!")).
  assert (split (HitApi.remove_punctuation (lower_latin (py "Le, la; les 19!")))
          = [py "le"; py "la"; py "les"]) as -> by (vm_compute; reflexivity).
  repeat apply Forall_cons_2; [..|apply Forall_nil_2];
    apply (bool_decide_unpack _); vm_compute; exact I.
Defined.

(** * More on the tag-based filter *)

Section TagFilterMore.
Import LexikonV2.
Variable lower : pystr -> pystr.
Implicit Types (t : token) (doc : list token) (m : gmap pystr pystr) (w p : pystr).

(** One turn of the loop, on the dict. *)
Lemma collect_lemmas_cons t doc m :
  collect_lemmas lower (t :: doc) m
  = collect_lemmas lower doc
      match kept_lemma lower t with
      | Some lemma =>
          match m !! lemma with
          | None => <[lemma := pos_ t]> m
          | Some _ => m
          end
      | None => m
      end.
Proof.
  cbn [collect_lemmas]. unfold kept_lemma.
  destruct (is_alpha t && negb (is_stop t)
            && bool_decide (pos_ t ∉ undesirable_pos)); [|done].
  cbv zeta.
  destruct ((1 <? length (strip (lower (lemma_ t))))%nat
            || ((length (strip (lower (lemma_ t))) =? 1)%nat
                && bool_decide (strip (lower (lemma_ t)) ∉ one_letter_words)));
    [|done].
  by destruct (m !! strip (lower (lemma_ t))).
Qed.

(** An entry of the dict is never replaced. *)
Lemma collect_lemmas_keeps doc m w p :
  m !! w = Some p -> collect_lemmas lower doc m !! w = Some p.
Proof.
  revert m. induction doc as [|t doc IH]; intros m Hm; [done|].
  rewrite collect_lemmas_cons. apply IH.
  destruct (kept_lemma lower t) as [lemma|]; [|done].
  destruct (m !! lemma) eqn:Hl; [done|].
  rewrite lookup_insert_ne; [done|]. intros ->. congruence.
Qed.

Lemma collect_lemmas_none doc m w :
  m !! w = None ->
  Forall (fun t => kept_lemma lower t ≠ Some w) doc ->
  collect_lemmas lower doc m !! w = None.
Proof.
  intros Hm Hall. revert m Hm.
  induction Hall as [|t doc Ht _ IH]; intros m Hm; [done|].
  rewrite collect_lemmas_cons. apply IH.
  destruct (kept_lemma lower t) as [lemma|]; [|done].
  destruct (m !! lemma) eqn:Hl; [done|].
  rewrite lookup_insert_ne; [done|]. congruence.
Qed.

Lemma collect_lemmas_first doc1 t doc2 m w :
  m !! w = None ->
  Forall (fun t' => kept_lemma lower t' ≠ Some w) doc1 ->
  kept_lemma lower t = Some w ->
  collect_lemmas lower (doc1 ++ t :: doc2) m !! w = Some (pos_ t).
Proof.
  intros Hm Hall Ht. revert m Hm.
  induction Hall as [|t' doc1 Ht' _ IH]; intros m Hm; cbn [app].
  - rewrite collect_lemmas_cons, Ht, Hm.
    apply collect_lemmas_keeps. by rewrite lookup_insert_eq.
  - rewrite collect_lemmas_cons. apply IH.
    destruct (kept_lemma lower t') as [lemma|]; [|done].
    destruct (m !! lemma) eqn:Hl; [done|].
    rewrite lookup_insert_ne; [done|]. congruence.
Qed.

(** The first token of a document that gives a lemma. *)
Lemma first_token doc w :
  Exists (fun t => kept_lemma lower t = Some w) doc ->
  exists doc1 t doc2,
    doc = doc1 ++ t :: doc2
    /\ Forall (fun t' => kept_lemma lower t' ≠ Some w) doc1
    /\ kept_lemma lower t = Some w.
Proof.
  induction doc as [|t doc IH]; [by intros ?%Exists_nil|].
  intros Hex. destruct (decide (kept_lemma lower t = Some w)) as [Ht|Ht].
  - by exists [], t, doc.
  - apply Exists_cons in Hex as [?|Hex]; [done|].
    destruct (IH Hex) as (doc1 & t' & doc2 & -> & Hall & Ht').
    exists (t :: doc1), t', doc2. split; [done|]. split; [by constructor|done].
Qed.
End TagFilterMore.

(** X16. The lemmas that [extract_unique_lemmas] returns are exactly the
    lemmas of the tokens that go through the two tests of the loop: a token
    that is not alphabetic, is a stop word or has an excluded part of
    speech gives none, and neither does one whose lemma fails the length
    test. *)
Theorem extract_unique_lemmas_tokens (lower : pystr -> pystr)
    (nlp : pystr -> list LexikonV2.token) (text w : pystr) :
  w ∈ LexikonV2.extract_unique_lemmas lower nlp text
  <-> exists t, t ∈ nlp text /\ LexikonV2.kept_lemma lower t = Some w.
Proof.
  rewrite elem_of_extract_unique_lemmas. split.
  - intros Hsome.
    destruct (decide (Exists (fun t => LexikonV2.kept_lemma lower t = Some w)
                        (nlp text))) as [Hex|Hnot].
    + by apply Exists_exists in Hex.
    + apply not_Exists_Forall in Hnot; [|apply _].
      rewrite (collect_lemmas_none lower (nlp text) ∅ w) in Hsome;
        [by destruct Hsome|apply lookup_empty|].
      eapply Forall_impl; [exact Hnot|]. done.
  - intros Hex. apply Exists_exists, first_token in Hex
      as (doc1 & t & doc2 & -> & Hall & Ht).
    rewrite (collect_lemmas_first lower doc1 t doc2 ∅ w); [by eexists| |done..].
    apply lookup_empty.
Qed.

(** X17. For every lemma the dict [unique_lemmas] holds the part of speech
    of the first token of the document that gives the lemma; later tokens
    with the same lemma do not change it. *)
Theorem first_observed_pos (lower : pystr -> pystr)
    (doc1 doc2 : list LexikonV2.token) (t : LexikonV2.token) (w : pystr) :
  Forall (fun t' => LexikonV2.kept_lemma lower t' ≠ Some w) doc1 ->
  LexikonV2.kept_lemma lower t = Some w ->
  LexikonV2.collect_lemmas lower (doc1 ++ t :: doc2) ∅ !! w
  = Some (LexikonV2.pos_ t).
Proof. intros Hall Ht. apply collect_lemmas_first; [apply lookup_empty|done..]. Qed.

Lemma first_observed_pos_witness :
  let noun := {| LexikonV2.is_alpha := true; LexikonV2.is_stop := false;
                 LexikonV2.pos_ := py "NOUN"; LexikonV2.lemma_ := py "Vol" |} in
  let verb := {| LexikonV2.is_alpha := true; LexikonV2.is_stop := false;
                 LexikonV2.pos_ := py "VERB"; LexikonV2.lemma_ := py "vol" |} in
  LexikonV2.collect_lemmas lower_latin ([] ++ noun :: [verb]) ∅ !! py "vol"
  = Some (py "NOUN").
Proof.
  intros noun verb.
  apply (first_observed_pos lower_latin [] [verb] noun (py "vol")).
  - constructor.
  - vm_compute. reflexivity.
Defined.

(** * More on batch resolution *)

Section BatchMore.
Import LexikonV2.
Local Open Scope nat_scope.
Implicit Types (w : pystr) (words ts lemmas : list pystr)
  (data : gmap pystr (list sense)).

Local Abbreviation unknown t := {| pos := py "?"; translation := t |}.

(** The loop from the start of the list, the response no longer than the
    list: the keys are the words that have an item, each with the item of
    its last position among them. *)
Lemma fill_lexicon_prefix words ts :
  length ts ≤ length words ->
  exists data,
    fill_lexicon words 0 ts ∅ = Ok data
    /\ (forall w, is_Some (data !! w) <-> w ∈ take (length ts) words)
    /\ (forall w senses, data !! w = Some senses ->
          exists t, t ∈ ts /\ senses = [unknown t])
    /\ (forall i w t, words !! i = Some w -> ts !! i = Some t ->
          (forall j, i < j -> j < length ts -> words !! j ≠ Some w) ->
          data !! w = Some [unknown t]).
Proof.
  intros Hlen.
  destruct (fill_lexicon_spec words ts 0 ∅ ltac:(simpl; lia))
    as (data & Hfill & Hlast & Hother).
  cbn [Nat.add] in Hlast, Hother.
  assert (forall w, w ∈ take (length ts) words ->
            exists t, t ∈ ts /\ data !! w = Some [unknown t]) as Hin.
  { intros w Hw. destruct (last_position _ _ Hw) as (k & Hk & Hlater).
    apply lookup_take_Some in Hk as [Hk Hkl].
    destruct (lookup_lt_is_Some_2 ts k Hkl) as [t Ht].
    exists t. split; [by eapply list_elem_of_lookup_2|].
    apply (Hlast k); [done..|]. intros k' Hk' Hk'l Hw'.
    apply (Hlater k' Hk'). by apply lookup_take_Some. }
  assert (forall w, w ∉ take (length ts) words -> data !! w = None) as Hout.
  { intros w Hw. rewrite Hother; [apply lookup_empty|].
    intros k Hk Hw'. apply Hw. apply list_elem_of_lookup. exists k.
    by apply lookup_take_Some. }
  exists data. split; [done|]. split; [|split].
  - intros w. split.
    + intros Hsome. destruct (decide (w ∈ take (length ts) words)); [done|].
      rewrite Hout in Hsome by done. by destruct Hsome.
    + intros (t & _ & ->)%Hin. by eexists.
  - intros w senses Hw.
    destruct (decide (w ∈ take (length ts) words)) as [Hi|Ho].
    + destruct (Hin w Hi) as (t & Ht & Hd). exists t. split; [done|congruence].
    + rewrite Hout in Hw by done. done.
  - intros i w t Hw Ht Hlater. by apply (Hlast i).
Qed.

(** The lines for distinct lemmas of which the first ones are resolved
    position by position and the others are no keys. *)
Lemma output_lines_prefix data lemmas ts :
  length ts ≤ length lemmas ->
  (forall i w t, lemmas !! i = Some w -> ts !! i = Some t ->
                 data !! w = Some [unknown t]) ->
  (forall i w, lemmas !! i = Some w -> length ts ≤ i -> data !! w = None) ->
  output_lines data lemmas
  = zip_with (fun w t => w ++ py " - " ++ t) lemmas ts.
Proof.
  revert ts. induction lemmas as [|w lemmas IH]; intros ts Hlen Hdata Hnone.
  { by destruct ts. }
  unfold output_lines in *. cbn [flat_map].
  destruct ts as [|t ts].
  - rewrite (Hnone 0 w) by (done || simpl; lia). cbn [app zip_with].
    rewrite (IH []); [by destruct lemmas|simpl; lia|done|].
    intros i w' Hw' _. apply (Hnone (S i)); [done|simpl; lia].
  - rewrite (Hdata 0 w t) by done. cbn [app zip_with]. f_equal.
    apply IH; [simpl in *; lia| |].
    + intros i w' t' Hw' Ht'. by apply (Hdata (S i)).
    + intros i w' Hw' Hi. apply (Hnone (S i)); [done|simpl; lia].
Qed.

Lemma join_nil_lines sep (lines : list pystr) :
  Forall (fun line => line ≠ []) lines -> join sep lines = [] -> lines = [].
Proof.
  intros Hall Hj. destruct Hall as [|line lines Hline _]; [done|].
  destruct lines; simpl in Hj; [done|]. by destruct line.
Qed.
End BatchMore.

(** X18. What [translate_word_list] does follows from the length of the
    response: no longer than the word list, the result is a mapping whose
    keys are the words that have an item, the words of the first
    positions; longer, the lookup past the end of the word list raises; and
    an exception of the backend goes through. *)
Theorem translate_word_list_outcome
    (translate_text : list pystr -> pystr -> pystr -> res (list pystr))
    (words : list pystr) (target_lang : pystr) :
  match translate_text words target_lang LexikonV2.source_language with
  | Raise e =>
      LexikonV2.translate_word_list translate_text words target_lang = Raise e
  | Ok ts =>
      if decide (length ts <= length words)%nat then
        exists data,
          LexikonV2.translate_word_list translate_text words target_lang = Ok data
          /\ forall w, is_Some (data !! w) <-> w ∈ take (length ts) words
      else
        LexikonV2.translate_word_list translate_text words target_lang
        = Raise IndexError
  end.
Proof.
  unfold LexikonV2.translate_word_list.
  destruct (translate_text words target_lang LexikonV2.source_language)
    as [ts|e]; cbn [bind]; [|done].
  destruct (decide (length ts <= length words)%nat) as [Hle|Hgt].
  - destruct (fill_lexicon_prefix words ts Hle) as (data & -> & Hkeys & _).
    by exists data.
  - apply fill_lexicon_raise; lia.
Qed.

(** X19. In every mapping that [translate_word_list] returns, each word has
    exactly one sense, with part of speech ["?"] and an item of the
    response as its translation: never an empty list, never two senses. *)
Theorem translate_word_list_one_sense
    (translate_text : list pystr -> pystr -> pystr -> res (list pystr))
    (words : list pystr) (target_lang : pystr) (ts : list pystr)
    (data : gmap pystr (list LexikonV2.sense)) (w : pystr)
    (senses : list LexikonV2.sense) :
  translate_text words target_lang LexikonV2.source_language = Ok ts ->
  LexikonV2.translate_word_list translate_text words target_lang = Ok data ->
  data !! w = Some senses ->
  exists t, t ∈ ts
    /\ senses = [{| LexikonV2.pos := py "?"; LexikonV2.translation := t |}].
Proof.
  unfold LexikonV2.translate_word_list. intros -> Hfill Hw. cbn [bind] in Hfill.
  destruct (decide (length ts <= length words)%nat) as [Hle|Hgt].
  - destruct (fill_lexicon_prefix words ts Hle) as (data' & Hfill' & _ & Hone & _).
    assert (data' = data) as -> by congruence. by eapply Hone.
  - rewrite fill_lexicon_raise in Hfill by lia. done.
Qed.

Lemma translate_word_list_one_sense_witness :
  exists t, t ∈ [py "cat"; py "mouse"]
    /\ [{| LexikonV2.pos := py "?"; LexikonV2.translation := py "mouse" |}]
       = [{| LexikonV2.pos := py "?"; LexikonV2.translation := t |}].
Proof.
  apply (translate_word_list_one_sense
           (translate_text_const [py "cat"; py "mouse"])
           [py "chat"; py "souris"] (py "en") [py "cat"; py "mouse"]
           (<[py "souris" := [{| LexikonV2.pos := py "?";
                                 LexikonV2.translation := py "mouse" |}]]>
            (<[py "chat" := [{| LexikonV2.pos := py "?";
                                LexikonV2.translation := py "cat" |}]]> ∅))
           (py "souris")).
  - reflexivity.
  - vm_compute. reflexivity.
  - vm_compute. reflexivity.
Defined.

(** X20. [format_lexicon_output] returns the empty string exactly when no
    lemma of the list is a key of the data with a list of senses that is
    not empty; lemmas that are no keys are passed over without an error. *)
Theorem format_lexicon_output_empty
    (data : gmap pystr (list LexikonV2.sense)) (lemmas : list pystr) :
  LexikonV2.format_lexicon_output data lemmas = []
  <-> Forall (fun w => data !! w ≫= head = None) lemmas.
Proof.
  pose proof (output_lines_first data lemmas) as Hlines.
  unfold LexikonV2.format_lexicon_output.
  assert (LexikonV2.output_lines data lemmas = []
          <-> Forall (fun w => data !! w ≫= head = None) lemmas) as Hiff.
  { split.
    - intros Hnil. rewrite Hnil in Hlines. apply Forall2_nil_inv_l in Hlines.
      apply Forall_forall. intros w Hw.
      destruct (data !! w ≫= head) as [first|] eqn:E; [|done].
      assert (w ∈ filter (fun w => is_Some (data !! w ≫= head)) lemmas) as Hin.
      { apply list_elem_of_filter. split; [by rewrite E|done]. }
      rewrite Hlines in Hin. by apply elem_of_nil in Hin.
    - intros Hall. clear Hlines. unfold LexikonV2.output_lines.
      induction Hall as [|w lemmas Hw _ IH]; [done|]. cbn [flat_map].
      destruct (data !! w) as [[|first rest]|]; cbn in Hw; [|done|];
        by rewrite IH. }
  rewrite <-Hiff. split; [|by intros ->].
  apply join_nil_lines. clear Hiff.
  induction Hlines as [|out w outs ws (first & _ & ->) _ IH]; constructor; [|done].
  by destruct w.
Qed.

(** X21. The main block, for a text that is not empty: with a response no
    longer than the list of lemmas, the output has the line
    [lemma - translation] for each lemma that has an item, in sorted order,
    and the lemmas past the end of the response are left out without an
    error; with a longer response the run ends with an [IndexError]. *)
Theorem main_outcome (lower : pystr -> pystr)
    (nlp : pystr -> list LexikonV2.token)
    (translate_text : list pystr -> pystr -> pystr -> res (list pystr))
    (text : pystr) (ts : list pystr) :
  text ≠ [] ->
  translate_text (LexikonV2.extract_unique_lemmas lower nlp text)
    LexikonV2.target_language LexikonV2.source_language = Ok ts ->
  LexikonV2.main lower nlp translate_text text
  = if decide (length ts <= length (LexikonV2.extract_unique_lemmas lower nlp text))%nat
    then Ok (Some (join [NEWLINE]
                     (zip_with (fun w t => w ++ py " - " ++ t)
                        (LexikonV2.extract_unique_lemmas lower nlp text) ts)))
    else Raise IndexError.
Proof.
  intros Htext Hts. unfold LexikonV2.main. destruct text as [|c text]; [done|].
  set (lemmas := LexikonV2.extract_unique_lemmas lower nlp (c :: text)) in *.
  assert (NoDup lemmas) as Hnd by apply extract_unique_lemmas_NoDup.
  unfold LexikonV2.translate_word_list. rewrite Hts. cbn [bind].
  destruct (decide (length ts <= length lemmas)%nat) as [Hle|Hgt].
  - destruct (fill_lexicon_prefix lemmas ts Hle) as (data & -> & Hkeys & _ & Hlast).
    cbn [bind]. do 2 f_equal. unfold LexikonV2.format_lexicon_output. f_equal.
    apply output_lines_prefix; [done| |].
    + intros i w t Hw Ht. apply (Hlast i); [done..|].
      intros j Hij _. by eapply NoDup_no_later.
    + intros i w Hw Hi. destruct (data !! w) eqn:Hd; [|done]. exfalso.
      assert (w ∈ take (length ts) lemmas) as Hin by (apply Hkeys; by eexists).
      apply list_elem_of_lookup in Hin as [j Hj].
      apply lookup_take_Some in Hj as [Hj Hjl].
      pose proof (NoDup_lookup _ _ _ _ Hnd Hw Hj). lia.
  - rewrite fill_lexicon_raise by lia. done.
Qed.

Lemma main_outcome_witness :
  LexikonV2.main lower_latin nlp_sample (translate_text_const [py "cat"])
    (py "Le chat et la souris")
  = Ok (Some (py "chat - cat")).
Proof.
  rewrite (main_outcome lower_latin nlp_sample (translate_text_const [py "cat"])
             (py "Le chat et la souris") [py "cat"]).
  - vm_compute. reflexivity.
  - done.
  - reflexivity.
Defined.

(** * The files of the batch program *)

Section Files.
Import LexikonV2.

Lemma output_paths_differ : py "unique_lemmas.txt" ≠ py "lexicon_output.txt".
Proof. by vm_compute. Qed.
End Files.

(** X22. When the input file is not there, or is empty, the main block
    stops at once: no file is written and the backend is not asked. *)
Theorem run_without_text (lower : pystr -> pystr)
    (nlp : pystr -> list LexikonV2.token)
    (translate_text : list pystr -> pystr -> pystr -> res (list pystr))
    (files : gmap pystr pystr) :
  files !! LexikonV2.filename = None \/ files !! LexikonV2.filename = Some [] ->
  LexikonV2.run lower nlp translate_text files = (files, Ok tt).
Proof.
  unfold LexikonV2.run, LexikonV2.load_text. by intros [-> | ->].
Qed.

Lemma run_without_text_witness :
  LexikonV2.run lower_latin nlp_sample (translate_text_const [py "cat"]) ∅
  = (∅, Ok tt).
Proof.
  apply (run_without_text lower_latin nlp_sample (translate_text_const [py "cat"]) ∅).
  left. apply lookup_empty.
Defined.

(** X23. For an input file that is not empty, the list of lemmas is saved
    to [unique_lemmas.txt], one lemma per line, before the backend is
    asked, and stays there when the translation raises; the lexicon is
    saved to [lexicon_output.txt] only when the translation returns, and
    otherwise that file is as it was. *)
Theorem run_outputs (lower : pystr -> pystr)
    (nlp : pystr -> list LexikonV2.token)
    (translate_text : list pystr -> pystr -> pystr -> res (list pystr))
    (files : gmap pystr pystr) (text : pystr) :
  files !! LexikonV2.filename = Some text ->
  text ≠ [] ->
  let lemmas := LexikonV2.extract_unique_lemmas lower nlp text in
  let after := LexikonV2.run lower nlp translate_text files in
  after.1 !! py "unique_lemmas.txt" = Some (join [NEWLINE] lemmas)
  /\ match LexikonV2.translate_word_list translate_text lemmas
             LexikonV2.target_language with
     | Ok data =>
         after.2 = Ok tt
         /\ after.1 !! py "lexicon_output.txt"
            = Some (LexikonV2.format_lexicon_output data lemmas)
     | Raise e =>
         after.2 = Raise e
         /\ after.1 !! py "lexicon_output.txt" = files !! py "lexicon_output.txt"
     end.
Proof.
  intros Hfile Htext lemmas after. subst lemmas after.
  unfold LexikonV2.run, LexikonV2.load_text, LexikonV2.save_output. rewrite Hfile.
  destruct text as [|c text]; [done|].
  destruct (LexikonV2.translate_word_list translate_text
              (LexikonV2.extract_unique_lemmas lower nlp (c :: text))
              LexikonV2.target_language) as [data|e]; cbn [fst snd].
  - split; [|split; [done|]].
    + rewrite lookup_insert_ne by (symmetry; apply output_paths_differ).
      apply lookup_insert_eq.
    + apply lookup_insert_eq.
  - split; [apply lookup_insert_eq|]. split; [done|].
    apply lookup_insert_ne, output_paths_differ.
Qed.

Lemma run_outputs_witness :
  let files : gmap pystr pystr := {[ LexikonV2.filename := py "Le chat et la souris" ]} in
  let after := LexikonV2.run lower_latin nlp_sample (translate_text_const [py "cat"; py "mouse"; py "?"]) files in
  after.1 !! py "unique_lemmas.txt" = Some (py "chat" ++ [NEWLINE] ++ py "souris")
  /\ after.2 = Raise IndexError
  /\ after.1 !! py "lexicon_output.txt" = None.
Proof.
  intros files after.
  pose proof (run_outputs lower_latin nlp_sample
                (translate_text_const [py "cat"; py "mouse"; py "?"]) files
                (py "Le chat et la souris")) as H.
  destruct H as [Hlemmas Hrest].
  - vm_compute. reflexivity.
  - done.
  - split.
    + fold after in Hlemmas. rewrite Hlemmas. vm_compute. reflexivity.
    + vm_compute. done.
Defined.

(** X24. The main block writes to [unique_lemmas.txt] and
    [lexicon_output.txt] only: every other file, the input file among them,
    is left as it was, however the run ends. *)
Theorem run_other_files (lower : pystr -> pystr)
    (nlp : pystr -> list LexikonV2.token)
    (translate_text : list pystr -> pystr -> pystr -> res (list pystr))
    (files : gmap pystr pystr) (path : pystr) :
  path ≠ py "unique_lemmas.txt" ->
  path ≠ py "lexicon_output.txt" ->
  (LexikonV2.run lower nlp translate_text files).1 !! path = files !! path.
Proof.
  intros Hu Hl. unfold LexikonV2.run, LexikonV2.save_output.
  destruct (LexikonV2.load_text files LexikonV2.filename) as [|c text]; [done|].
  destruct (LexikonV2.translate_word_list _ _ _) as [data|e]; cbn [fst].
  - by rewrite !lookup_insert_ne.
  - by rewrite lookup_insert_ne.
Qed.

Lemma run_other_files_witness :
  let files : gmap pystr pystr := {[ LexikonV2.filename := py "Le chat et la souris" ]} in
  (LexikonV2.run lower_latin nlp_sample (translate_text_const [py "cat"; py "mouse"]) files).1
    !! LexikonV2.filename
  = files !! LexikonV2.filename.
Proof.
  intros files.
  apply (run_other_files lower_latin nlp_sample
           (translate_text_const [py "cat"; py "mouse"]) files LexikonV2.filename);
    by vm_compute.
Defined.

(** X25. The tag-based program deduplicates as the stop-word program does:
    the list that [extract_unique_lemmas] returns is [normalize] of the
    lemmas of the tokens that go through the tests, taken in the order of
    the document. *)
Theorem extract_unique_lemmas_normalize (lower : pystr -> pystr)
    (nlp : pystr -> list LexikonV2.token) (text : pystr) :
  LexikonV2.extract_unique_lemmas lower nlp text
  = HitApi.normalize (omap (LexikonV2.kept_lemma lower) (nlp text)).
Proof.
  unfold LexikonV2.extract_unique_lemmas. apply normalize_any_listing.
  - apply NoDup_fst_map_to_list.
  - intros w. rewrite list_elem_of_omap.
    pose proof (elem_of_extract_unique_lemmas lower nlp text w) as Hkeys.
    unfold LexikonV2.extract_unique_lemmas in Hkeys.
    rewrite elem_of_sorted in Hkeys. rewrite Hkeys. split.
    + intros Hsome.
      destruct (decide (Exists (fun t => LexikonV2.kept_lemma lower t = Some w)
                          (nlp text))) as [Hex|Hnot].
      * by apply Exists_exists in Hex.
      * apply not_Exists_Forall in Hnot; [|apply _].
        rewrite (collect_lemmas_none lower (nlp text) ∅ w) in Hsome;
          [by destruct Hsome|apply lookup_empty|].
        eapply Forall_impl; [exact Hnot|]. done.
    + intros Hex. apply Exists_exists, first_token in Hex
        as (doc1 & t & doc2 & -> & Hall & Ht).
      rewrite (collect_lemmas_first lower doc1 t doc2 ∅ w); [by eexists| |done..].
      apply lookup_empty.
Qed.


(** * The rendered output *)

Section Rendered.
Import LexikonV2.

Lemma flat_map_ext_elem {A B} (f g : A -> list B) (l : list A) :
  (forall x, x ∈ l -> f x = g x) -> flat_map f l = flat_map g l.
Proof.
  induction l as [|x l IH]; intros Hfg; [done|]. cbn [flat_map].
  rewrite (Hfg x) by by left. f_equal. apply IH. intros y Hy. apply Hfg. by right.
Qed.

(** With one sense for every key, the lines of the formatter are the lines
    of all the senses of the lemmas. *)
Lemma output_lines_one_sense (data : gmap pystr (list sense))
    (lemmas : list pystr) :
  (forall w senses, data !! w = Some senses -> exists s, senses = [s]) ->
  output_lines data lemmas
  = flat_map (fun w => map (fun s => w ++ py " - " ++ translation s)
                         (default [] (data !! w))) lemmas.
Proof.
  intros Hone. unfold output_lines. apply flat_map_ext. intros w.
  destruct (data !! w) as [senses|] eqn:Hw; [|done].
  by destruct (Hone w senses Hw) as [s ->].
Qed.
End Rendered.

(** C8. For every lexicon that a run builds, the rendered output is one
    line for each pair of a base form and one of its senses, the base forms
    in sorted order and the senses of each in their order in the lexicon,
    and nothing else: [source (partOfSpeech) - target] per word, where the
    senses of a base form are its lines in the list [lexicon], and
    [source - target] in batch, the lines separated by newlines, where the
    senses of a base form are its list in the mapping.  Every base form of
    the lexicon is one of the sorted list. *)
Theorem rendered_output :
  (forall (lower : pystr -> pystr) (stopwords : list pystr)
          (translate : pystr -> pystr -> HitApi.answer) (text : pystr)
          (lexicon : list HitApi.line),
      HitApi.build_lexicon translate (HitApi.process lower stopwords text) []
      = Ok lexicon ->
      HitApi.main lower stopwords translate text
      = Ok (flat_map
              (fun w =>
                 map (fun ln =>
                        w ++ py " (" ++ HitApi.PartOfSpeech ln ++ py ") - "
                          ++ HitApi.Target ln)
                   (HitApi.senses_of w lexicon))
              (HitApi.process lower stopwords text))
      /\ Sorted str_lt (HitApi.process lower stopwords text)
      /\ Forall (fun ln => HitApi.Source ln ∈ HitApi.process lower stopwords text)
           lexicon)
  /\ (forall (lower : pystr -> pystr) (nlp : pystr -> list LexikonV2.token)
             (translate_text : list pystr -> pystr -> pystr -> res (list pystr))
             (text : pystr) (data : gmap pystr (list LexikonV2.sense)),
        text ≠ [] ->
        LexikonV2.translate_word_list translate_text
          (LexikonV2.extract_unique_lemmas lower nlp text)
          LexikonV2.target_language = Ok data ->
        LexikonV2.main lower nlp translate_text text
        = Ok (Some (join [NEWLINE]
                      (flat_map
                         (fun w =>
                            map (fun s => w ++ py " - " ++ LexikonV2.translation s)
                              (default [] (data !! w)))
                         (LexikonV2.extract_unique_lemmas lower nlp text))))
        /\ Sorted str_lt (LexikonV2.extract_unique_lemmas lower nlp text)
        /\ (forall w, is_Some (data !! w) ->
                      w ∈ LexikonV2.extract_unique_lemmas lower nlp text)).
Proof.
  split.
  - intros lower stopwords translate text lexicon Hb.
    pose proof (build_lexicon_Ok_inv _ _ _ _ Hb) as Hall.
    pose proof Hb as Hlex. rewrite build_lexicon_ok in Hlex by done.
    injection Hlex as <-. cbn [app] in *.
    split; [|split].
    + unfold HitApi.main. rewrite Hb. cbn [bind]. f_equal.
      rewrite map_flat_map. apply flat_map_ext_elem. intros w Hw.
      rewrite senses_of_lexicon by (apply normalize_NoDup || done).
      apply render_lines_of.
    + apply normalize_increasing.
    + apply Forall_forall. intros ln Hin.
      apply list_elem_of_In, in_flat_map in Hin
        as (v & Hv%list_elem_of_In & Hin%list_elem_of_In).
      by apply lines_of_Source in Hin as ->.
  - intros lower nlp translate_text text data Htext Hdata.
    set (lemmas := LexikonV2.extract_unique_lemmas lower nlp text) in *.
    assert ((forall w senses, data !! w = Some senses -> exists s, senses = [s])
            /\ (forall w, is_Some (data !! w) -> w ∈ lemmas)) as [Hone Hkeys].
    { unfold LexikonV2.translate_word_list in Hdata.
      destruct (translate_text lemmas LexikonV2.target_language
                  LexikonV2.source_language) as [ts|e]; [|done].
      cbn [bind] in Hdata.
      destruct (decide (length ts <= length lemmas)%nat) as [Hle|Hgt].
      - destruct (fill_lexicon_prefix lemmas ts Hle)
          as (data' & Hfill & Hk & Ho & _).
        assert (data' = data) as -> by congruence. split.
        + intros w senses Hw. destruct (Ho w senses Hw) as (t & _ & ->).
          by eexists.
        + intros w Hw. apply Hk, elem_of_take in Hw as (i & Hi & _).
          by eapply list_elem_of_lookup_2.
      - rewrite fill_lexicon_raise in Hdata by lia. done. }
    split; [|split; [apply extract_unique_lemmas_increasing|done]].
    unfold LexikonV2.main. destruct text as [|c text]; [done|].
    fold lemmas. rewrite Hdata. cbn [bind]. do 2 f_equal.
    unfold LexikonV2.format_lexicon_output. f_equal.
    by apply output_lines_one_sense.
Qed.

Lemma rendered_output_witness :
  HitApi.main lower_latin stopwords_sample translate_sample (py "Voler, le chat!")
  = Ok [py "chat (NOUN) - cat"; py "voler (VERB) - to fly";
        py "voler (VERB) - to steal"].
Proof.
  destruct rendered_output as [Hper_word _].
  destruct (Hper_word lower_latin stopwords_sample translate_sample
              (py "Voler, le chat!")
              [HitApi.single_translation (py "chat") (py "NOUN") (py "cat");
               HitApi.single_translation (py "voler") (py "VERB") (py "to fly");
               HitApi.single_translation (py "voler") (py "VERB") (py "to steal")])
    as (-> & _).
  - vm_compute. reflexivity.
  - vm_compute. reflexivity.
Defined.
